(** * Tabular Q-learning client: a shallow embedding of [main.py]

    The development follows the source file: Python values and numbers,
    the exceptions the code can raise, the persistence record of
    [APIClient], then [QLearningAgent] method by method
    ([_state_key], [choose_direction], [valid_directions], [learn],
    [train]), and finally the properties of the learning core. *)

From Stdlib Require Import ZArith QArith.
From stdpp Require Import gmap strings list fin_maps.

Local Open Scope string_scope.
Local Open Scope list_scope.
Local Open Scope Z_scope.

(** ** Python values *)

(** The fragment of Python values that observations are made of: [None],
    integers, strings, tuples and lists.  On this fragment Python's [==] is
    structural equality: a tuple never equals a list, whatever they hold. *)
#[local] Unset Elimination Schemes.
Inductive pyval : Type :=
  | PyNone
  | PyInt (z : Z)
  | PyStr (s : string)
  | PyTuple (items : list pyval)
  | PyList (items : list pyval).
#[local] Set Elimination Schemes.

Module PyVal.

Section Induction.
Variable P : pyval → Prop.
Hypothesis HNone : P PyNone.
Hypothesis HInt : ∀ z, P (PyInt z).
Hypothesis HStr : ∀ s, P (PyStr s).
Hypothesis HTuple : ∀ items, Forall P items → P (PyTuple items).
Hypothesis HList : ∀ items, Forall P items → P (PyList items).

Fixpoint nested_ind (v : pyval) : P v :=
  let fix all (l : list pyval) : Forall P l :=
    match l with
    | [] => @List.Forall_nil _ P
    | x :: l' => @List.Forall_cons _ P x l' (nested_ind x) (all l')
    end in
  match v with
  | PyNone => HNone
  | PyInt z => HInt z
  | PyStr s => HStr s
  | PyTuple items => HTuple items (all items)
  | PyList items => HList items (all items)
  end.
End Induction.

Fixpoint to_tree (v : pyval) : gen_tree (unit + Z + string) :=
  match v with
  | PyNone => GenLeaf (inl (inl ()))
  | PyInt z => GenLeaf (inl (inr z))
  | PyStr s => GenLeaf (inr s)
  | PyTuple items => GenNode 0 (to_tree <$> items)
  | PyList items => GenNode 1 (to_tree <$> items)
  end.

Fixpoint of_tree (t : gen_tree (unit + Z + string)) : pyval :=
  match t with
  | GenLeaf (inl (inl _)) => PyNone
  | GenLeaf (inl (inr z)) => PyInt z
  | GenLeaf (inr s) => PyStr s
  | GenNode 0 ts => PyTuple (of_tree <$> ts)
  | GenNode _ ts => PyList (of_tree <$> ts)
  end.

Lemma of_to_tree v : of_tree (to_tree v) = v.
Proof.
  induction v as [| | |items IH|items IH] using nested_ind;
    cbn [to_tree of_tree]; try done.
  - f_equal. induction IH as [|x l Hx _ IHl]; [done|].
    rewrite !fmap_cons. by rewrite Hx, IHl.
  - f_equal. induction IH as [|x l Hx _ IHl]; [done|].
    rewrite !fmap_cons. by rewrite Hx, IHl.
Qed.

#[global] Instance to_tree_inj : Inj (=) (=) to_tree.
Proof. intros x y E. by rewrite <- (of_to_tree x), E, of_to_tree. Qed.

#[global] Instance eq_dec : EqDecision pyval.
Proof.
  intros x y. destruct (decide (to_tree x = to_tree y)) as [E|E].
  - left. by apply to_tree_inj.
  - right. by intros ->.
Defined.

#[global] Instance countable : Countable pyval :=
  inj_countable' to_tree of_tree of_to_tree.

(** [hash(v)] succeeds: lists are unhashable, a tuple is hashable when
    all its items are. *)
Fixpoint hashable (v : pyval) : bool :=
  match v with
  | PyList _ => false
  | PyTuple items => forallb hashable items
  | _ => true
  end.

End PyVal.
Export PyVal.

(** ** Exceptions and results *)

Inductive exn : Type := ValueError | TypeError | IndexError | HTTPError.

(** What running a piece of the program gives: a value, a raised exception,
    or [Diverge] when the bound on loop iterations is used up. *)
Inductive outcome (A : Type) : Type :=
  | Ret (a : A)
  | Raise (e : exn)
  | Diverge.
Arguments Ret {A} a.
Arguments Raise {A} e.
Arguments Diverge {A}.

#[global] Instance outcome_ret : MRet outcome := @Ret.
#[global] Instance outcome_bind : MBind outcome := λ A B k o,
  match o with
  | Ret a => k a
  | Raise e => Raise e
  | Diverge => Diverge
  end.

(** ** Numbers *)

(** The arithmetic the agent uses on rewards and values: [0], [+], [-], [*]
    and the comparisons [>], [<] and [==].  The code is embedded over any
    interpretation of these; [Q] is the exact one. *)
Class PyNum (num : Type) : Type := {
  nzero : num;
  nadd : num → num → num;
  nsub : num → num → num;
  nmul : num → num → num;
  ngtb : num → num → bool;
  neqb : num → num → bool;
}.

Definition nltb {num : Type} `{!PyNum num} (a b : num) : bool := ngtb b a.

(** [a <= b] as Python decides it: [a > b] is false. *)
Definition nle {num : Type} `{!PyNum num} (a b : num) : Prop := ngtb a b = false.

(** The order facts used where a property speaks of a maximum: [>] is a
    strict order whose complement is transitive, and [==] is reflexive.
    They hold of the rationals, and of floats as long as no NaN occurs. *)
Class PyNumLaws (num : Type) `{!PyNum num} : Prop := {
  ngtb_asym : ∀ a b, ngtb a b = true → ngtb b a = false;
  nle_trans : ∀ a b c, nle a b → nle b c → nle a c;
  neqb_refl : ∀ a, neqb a a = true;
}.

#[global] Instance Q_num : PyNum Q := {|
  nzero := 0%Q;
  nadd := Qplus;
  nsub := Qminus;
  nmul := Qmult;
  ngtb a b := negb (Qle_bool a b);
  neqb := Qeq_bool;
|}.

(** Python's [max(a, b)]: the first argument unless the second is greater. *)
Definition py_max2 {num : Type} `{!PyNum num} (a b : num) : num :=
  if ngtb b a then b else a.

(** Python's [max(iterable)]: [ValueError] on an empty iterable, else the
    first of the greatest items. *)
Definition py_max {num : Type} `{!PyNum num} (l : list num) : outcome num :=
  match l with
  | [] => Raise ValueError
  | x :: l' => Ret (fold_left py_max2 l' x)
  end.

(** [float('-inf')] and the finite numbers. *)
Inductive ext (num : Type) : Type :=
  | NegInf
  | Fin (x : num).
Arguments NegInf {num}.
Arguments Fin {num} x.

Definition ext_gtb {num : Type} `{!PyNum num} (a b : ext num) : bool :=
  match a, b with
  | NegInf, _ => false
  | Fin _, NegInf => true
  | Fin x, Fin y => ngtb x y
  end.

Definition ext_max2 {num : Type} `{!PyNum num} (a b : ext num) : ext num :=
  if ext_gtb b a then b else a.

Definition ext_add {num : Type} `{!PyNum num} (a b : ext num) : ext num :=
  match a, b with
  | Fin x, Fin y => Fin (nadd x y)
  | _, _ => NegInf
  end.

Declare Scope py_scope.
Delimit Scope py_scope with py.
Notation "a + b" := (nadd a b) : py_scope.
Notation "a - b" := (nsub a b) : py_scope.
Notation "a * b" := (nmul a b) : py_scope.
Notation "a <= b" := (nle a b) : py_scope.

(** Python's [a or b] on lists: [a] unless it is empty. *)
Definition py_or {A} (a b : list A) : list A :=
  match a with
  | [] => b
  | _ :: _ => a
  end.

(** ** Tuples, unpacking and comparisons of Python values *)

(** [tuple(v)]: the items of a list or tuple, the characters of a string;
    [None] and integers are not iterable. *)
Definition py_tuple (v : pyval) : outcome pyval :=
  match v with
  | PyTuple items | PyList items => Ret (PyTuple items)
  | PyStr s => Ret (PyTuple ((λ c, PyStr (String c "")) <$> String.list_ascii_of_string s))
  | PyNone | PyInt _ => Raise TypeError
  end.

(** [x, y = v]. *)
Definition unpack2 (v : pyval) : outcome (pyval * pyval) :=
  match v with
  | PyTuple [x; y] | PyList [x; y] => Ret (x, y)
  | PyStr (String a (String b "")) => Ret (PyStr (String a ""), PyStr (String b ""))
  | PyTuple _ | PyList _ | PyStr _ => Raise ValueError
  | PyNone | PyInt _ => Raise TypeError
  end.

(** [v > n] and [v < n] against an integer: defined on integers only. *)
Definition py_gt (v : pyval) (n : Z) : outcome bool :=
  match v with
  | PyInt z => Ret (n <? z)
  | _ => Raise TypeError
  end.

Definition py_lt (v : pyval) (n : Z) : outcome bool :=
  match v with
  | PyInt z => Ret (z <? n)
  | _ => Raise TypeError
  end.

(** ** The world interface *)

(** A JSON result of the game server, as far as [train] reads it: each of
    the four keys may be absent. *)
Record result (num : Type) : Type := {
  r_worldId : option pyval;
  r_position : option pyval;
  r_reward : option num;
  r_completed : option bool;
}.
Arguments r_worldId {num} _.
Arguments r_position {num} _.
Arguments r_reward {num} _.
Arguments r_completed {num} _.

(** The server behind [enter_world], [get_location] and [make_move]: a
    state machine whose answers the client returns as they are, or whose
    failure [raise_for_status] turns into an exception. *)
Class WorldInterface (num W : Type) : Type := {
  srv_enter : W → string → outcome (result num) * W;
  srv_location : W → outcome (result num) * W;
  srv_move : W → string → string → outcome (result num) * W;
}.

(** The process-global generator of the [random] module: [random()] and the
    draw below a bound that [choice] makes. *)
Class RandomSource (num G : Type) : Type := {
  rnd_random : G → num * G;
  rnd_below : G → nat → nat * G;
}.

(** ** APIClient: the persisted points *)

(** The entry of one team in [points.json].  [by_world] keeps the order in
    which worlds were first stored, as a Python dict does. *)
Record team (num : Type) : Type := {
  total : ext num;
  by_world : list (string * ext num);
}.
Arguments total {num} _.
Arguments by_world {num} _.

(** [d[k] = v] on an insertion-ordered dict. *)
Fixpoint alist_set {V} (k : string) (v : V) (d : list (string * V)) : list (string * V) :=
  match d with
  | [] => [(k, v)]
  | (k', v') :: d' => if decide (k' = k) then (k, v) :: d' else (k', v') :: alist_set k v d'
  end.

Fixpoint alist_get {V} (k : string) (d : list (string * V)) : option V :=
  match d with
  | [] => None
  | (k', v') :: d' => if decide (k' = k) then Some v' else alist_get k d'
  end.

Section Client.
Context {num : Type} `{!PyNum num}.

(** [sum(values)], from the integer 0. *)
Definition ext_sum (l : list (ext num)) : ext num :=
  fold_left ext_add l (Fin nzero).

Definition store_points (team_id : string) (data : gmap string (team num))
    (world_id : string) (points : ext num) : gmap string (team num) :=
  let t := default {| total := Fin nzero; by_world := [] |} (data !! team_id) in
  let bw := alist_set world_id points (by_world t) in
  <[team_id := {| total := ext_sum (bw.*2); by_world := bw |}]> data.

Definition load_points (team_id : string) (data : gmap string (team num)) : team num :=
  default {| total := Fin nzero; by_world := [] |} (data !! team_id).

End Client.

(** ** QLearningAgent *)

(** The attributes of the agent.  [Qtable] is the dict [self.Q], keyed by
    [(state_key, action)]; the client the agent talks to lives in the
    program state below. *)
Record agent (num : Type) : Type := {
  world_id : string;
  directions : list string;
  alpha : num;
  gamma : num;
  epsilon : num;
  episodes : Z;
  min_epsilon : num;
  decay_rate : num;
  Qtable : gmap (pyval * string) num;
}.
Arguments world_id {num} _.
Arguments directions {num} _.
Arguments alpha {num} _.
Arguments gamma {num} _.
Arguments epsilon {num} _.
Arguments episodes {num} _.
Arguments min_epsilon {num} _.
Arguments decay_rate {num} _.
Arguments Qtable {num} _.

Definition set_Qtable {num} (ag : agent num) (tbl : gmap (pyval * string) num) : agent num :=
  {| world_id := world_id ag; directions := directions ag; alpha := alpha ag;
     gamma := gamma ag; epsilon := epsilon ag; episodes := episodes ag;
     min_epsilon := min_epsilon ag; decay_rate := decay_rate ag; Qtable := tbl |}.

Definition set_epsilon {num} (ag : agent num) (eps : num) : agent num :=
  {| world_id := world_id ag; directions := directions ag; alpha := alpha ag;
     gamma := gamma ag; epsilon := eps; episodes := episodes ag;
     min_epsilon := min_epsilon ag; decay_rate := decay_rate ag; Qtable := Qtable ag |}.

Definition set_episodes {num} (ag : agent num) (n : Z) : agent num :=
  {| world_id := world_id ag; directions := directions ag; alpha := alpha ag;
     gamma := gamma ag; epsilon := epsilon ag; episodes := n;
     min_epsilon := min_epsilon ag; decay_rate := decay_rate ag; Qtable := Qtable ag |}.

(** [QLearningAgent.__init__]: an absent or empty [directions] gives the
    four cardinal directions, and the table starts empty. *)
Definition init {num} (world_id : string) (directions : option (list string))
    (alpha gamma epsilon : num) (episodes : Z) (min_epsilon decay_rate : num) : agent num :=
  {| world_id := world_id;
     directions := py_or (default [] directions) ["N"; "S"; "W"; "E"];
     alpha := alpha; gamma := gamma; epsilon := epsilon; episodes := episodes;
     min_epsilon := min_epsilon; decay_rate := decay_rate; Qtable := ∅ |}.

Definition _state_key (state : pyval) : pyval :=
  match state with
  | PyList items | PyTuple items => PyTuple items
  | _ => PyTuple [state]
  end.

Section Agent.
Context {num : Type} `{!PyNum num}.

(** [d.get(k, dflt)] and [d[k] = v] on the value table: the key
    [(state_key, action)] must be hashable, and it is when [state_key] is,
    the action being a string. *)
Definition dict_get (d : gmap (pyval * string) num) (k : pyval * string) (dflt : num) : outcome num :=
  if hashable k.1 then Ret (default dflt (d !! k)) else Raise TypeError.

Definition dict_set (d : gmap (pyval * string) num) (k : pyval * string) (v : num)
    : outcome (gmap (pyval * string) num) :=
  if hashable k.1 then Ret (<[k := v]> d) else Raise TypeError.

(** [[self.Q.get((key, d), 0) for d in dirs]]. *)
Definition q_values (ag : agent num) (key : pyval) (dirs : list string) : outcome (list num) :=
  mapM (λ d, dict_get (Qtable ag) (key, d) nzero) dirs.

Definition valid_directions (ag : agent num) (position : pyval) (grid_size : Z)
    : outcome (list string) :=
  '(x, y) ← unpack2 position;
  let m := grid_size - 1 in
  let dirs : list string := [] in
  north ← py_gt x 0;
  let dirs := if north : bool then (dirs ++ ["N"])%list else dirs in
  south ← py_lt x m;
  let dirs := if south : bool then (dirs ++ ["S"])%list else dirs in
  west ← py_gt y 0;
  let dirs := if west : bool then (dirs ++ ["W"])%list else dirs in
  east ← py_lt y m;
  let dirs := if east : bool then (dirs ++ ["E"])%list else dirs in
  Ret (py_or dirs (directions ag)).

Definition learn (ag : agent num) (state_key : pyval) (action : string) (reward : num)
    (next_key : pyval) (done : bool) : outcome (agent num) :=
  q_val ← dict_get (Qtable ag) (state_key, action) nzero;
  target ← (if done then Ret reward
            else vals ← q_values ag next_key (directions ag);
                 future_max ← py_max vals;
                 Ret (reward + gamma ag * future_max)%py);
  tbl ← dict_set (Qtable ag) (state_key, action) (q_val + alpha ag * (target - q_val))%py;
  Ret (set_Qtable ag tbl).

(** The decay at the end of an episode:
    [self.epsilon = max(self.min_epsilon, self.epsilon * self.decay_rate)]. *)
Definition decay (ag : agent num) : agent num :=
  set_epsilon ag (py_max2 (min_epsilon ag) (epsilon ag * decay_rate ag)%py).

End Agent.

(** ** The running program *)

(** What the client did, in order: the record of the calls on the world
    interface and on the persisted points. *)
Inductive event (num : Type) : Type :=
  | EvEnter (world : string)
  | EvLocate (loc : result num)
  | EvMove (world move : string) (res : result num)
  | EvStore (world : string) (points : ext num).
Arguments EvEnter {num} world.
Arguments EvLocate {num} loc.
Arguments EvMove {num} world move res.
Arguments EvStore {num} world points.

(** The agent object, the server it plays against, the random generator,
    the client's team and points file, and the calls made so far. *)
Record state (num W G : Type) : Type := {
  self : agent num;
  server : W;
  rng : G;
  team_id : string;
  data_file : gmap string (team num);
  trace : list (event num);
}.
Arguments self {num W G} _.
Arguments server {num W G} _.
Arguments rng {num W G} _.
Arguments team_id {num W G} _.
Arguments data_file {num W G} _.
Arguments trace {num W G} _.

(** A statement of the program: it runs in a state and leaves a value, an
    exception or a divergence, and the state it reached. *)
Definition prog (num W G A : Type) : Type := state num W G → outcome A * state num W G.

Section Program.
Context {num W G : Type}.
Implicit Types (st : state num W G) (ag : agent num).

#[global] Instance prog_ret : MRet (prog num W G) := λ A a st, (Ret a, st).
#[global] Instance prog_bind : MBind (prog num W G) := λ A B k m st,
  match m st with
  | (Ret a, st') => k a st'
  | (Raise e, st') => (Raise e, st')
  | (Diverge, st') => (Diverge, st')
  end.

Definition lift {A} (o : outcome A) : prog num W G A := λ st, (o, st).

Definition get_self : prog num W G (agent num) := λ st, (Ret (self st), st).

Definition put_self ag : prog num W G unit := λ st,
  (Ret (), {| self := ag; server := server st; rng := rng st; team_id := team_id st;
              data_file := data_file st; trace := trace st |}).

Definition with_rng {A} (f : G → outcome A * G) : prog num W G A := λ st,
  let '(o, g) := f (rng st) in
  (o, {| self := self st; server := server st; rng := g; team_id := team_id st;
         data_file := data_file st; trace := trace st |}).

(** A request to the server; an answer is recorded in the trace. *)
Definition request (f : W → outcome (result num) * W) (ev : result num → event num)
    : prog num W G (result num) := λ st,
  let '(o, w) := f (server st) in
  (o, {| self := self st; server := w; rng := rng st; team_id := team_id st;
         data_file := data_file st;
         trace := match o with Ret r => trace st ++ [ev r] | _ => trace st end |}).

End Program.

Section Train.
Context {num W G : Type} `{!PyNum num, !WorldInterface num W, !RandomSource num G}.
Implicit Types (st : state num W G) (ag : agent num).

(** [random.choice(seq)]: [IndexError] on an empty sequence, else the item
    at the index the generator draws below [len(seq)]. *)
Definition choice {A} (seq : list A) (g : G) : outcome A * G :=
  match seq with
  | [] => (Raise IndexError, g)
  | x :: _ =>
      let '(i, g') := rnd_below g (length seq) in
      (Ret (nth (i mod length seq)%nat seq x), g')
  end.

(** [[d for d, q in zip(dirs, q_vals) if q == max_q]]. *)
Definition best_of (dirs : list string) (q_vals : list num) (max_q : num) : list string :=
  (List.filter (λ dq, neqb dq.2 max_q) (zip dirs q_vals)).*1.

Definition choose_direction ag (state_key : pyval) (valid_dirs : option (list string))
    (g : G) : outcome string * G :=
  let dirs := py_or (default [] valid_dirs) (directions ag) in
  let '(u, g) := rnd_random g in
  if nltb u (epsilon ag) then choice dirs g
  else
    match (q_vals ← q_values ag state_key dirs;
           max_q ← py_max q_vals;
           Ret (best_of dirs q_vals max_q)) with
    | Ret best => choice best g
    | Raise e => (Raise e, g)
    | Diverge => (Diverge, g)
    end.

Definition enter_world (world : string) : prog num W G (result num) :=
  request (λ w, srv_enter w world) (λ _, EvEnter world).

Definition get_location : prog num W G (result num) :=
  request srv_location EvLocate.

Definition make_move (world move : string) : prog num W G (result num) :=
  request (λ w, srv_move w world move) (EvMove world move).

(** [self.client.store_points(world, points)]. *)
Definition client_store_points (world : string) (points : ext num) : prog num W G unit :=
  λ st, (Ret (), {| self := self st; server := server st; rng := rng st;
                    team_id := team_id st;
                    data_file := store_points (team_id st) (data_file st) world points;
                    trace := trace st ++ [EvStore world points] |}).

(** The key of an observation, as [train] builds it from a result:
    [self._state_key((res.get("worldId"), tuple(position)))]. *)
Definition observe (res : result num) (position : pyval) : outcome pyval :=
  t ← py_tuple position;
  Ret (_state_key (PyTuple [default PyNone (r_worldId res); t])).

Definition default_grid_size : Z := 40.

(** The body of [while not done], at most [fuel] times; [done] is false on
    entry, so the body runs at least once. *)
Fixpoint episode_loop (fuel : nat) (position state_key : pyval) (total : num)
    : prog num W G num :=
  match fuel with
  | O => lift Diverge
  | S fuel' =>
      ag ← get_self;
      valid ← lift (valid_directions ag position default_grid_size);
      move ← with_rng (choose_direction ag state_key (Some valid));
      res ← make_move (world_id ag) move;
      let reward := default nzero (r_reward res) in
      let done := default false (r_completed res) in
      let position := default (PyList []) (r_position res) in
      next_key ← lift (observe res position);
      ag' ← lift (learn ag state_key move reward next_key done);
      _ ← put_self ag';
      let total := (total + reward)%py in
      if done then mret total else episode_loop fuel' position next_key total
  end.

(** One pass of the [for] loop up to the end of its [while]: the total
    reward of the episode. *)
Definition run_episode (fuel : nat) : prog num W G num :=
  ag ← get_self;
  _ ← enter_world (world_id ag);
  loc ← get_location;
  let position := default (PyList []) (r_position loc) in
  state_key ← lift (observe loc position);
  episode_loop fuel position state_key nzero.

(** [for _ in range(n)], carrying [best_reward]. *)
Fixpoint train_loop (fuel n : nat) (best_reward : ext num) : prog num W G (ext num) :=
  match n with
  | O => mret best_reward
  | S n' =>
      total ← run_episode fuel;
      let best_reward := ext_max2 best_reward (Fin total) in
      ag ← get_self;
      _ ← put_self (decay ag);
      train_loop fuel n' best_reward
  end.

Definition train (fuel : nat) : prog num W G (ext num) :=
  ag ← get_self;
  best_reward ← train_loop fuel (Z.to_nat (episodes ag)) NegInf;
  _ ← client_store_points (world_id ag) best_reward;
  mret best_reward.

End Train.

(** ** Vocabulary of the properties *)

(** A position that is a pair of integers, as a JSON list or as a tuple. *)
Definition int_pair (position : pyval) : bool :=
  match position with
  | PyList [PyInt _; PyInt _] | PyTuple [PyInt _; PyInt _] => true
  | _ => false
  end.

(** The move each direction stands for, read off the guards of
    [valid_directions]: [N] and [S] change the first coordinate, [W] and
    [E] the second. *)
Definition moved (d : string) (p : Z * Z) : option (Z * Z) :=
  if decide (d = "N") then Some (p.1 - 1, p.2)
  else if decide (d = "S") then Some (p.1 + 1, p.2)
  else if decide (d = "W") then Some (p.1, p.2 - 1)
  else if decide (d = "E") then Some (p.1, p.2 + 1)
  else None.

Definition on_grid (size : Z) (p : Z * Z) : Prop :=
  0 ≤ p.1 ≤ size - 1 ∧ 0 ≤ p.2 ≤ size - 1.

(** A result of the server that [train] can go on from: the position is a
    pair of integers and the world identifier is hashable. *)
Definition good_result {num} (res : result num) : bool :=
  int_pair (default (PyList []) (r_position res))
  && hashable (default PyNone (r_worldId res)).

(** The fields of the state a statement leaves alone. *)
Definition same_files {num W G} (st st' : state num W G) : Prop :=
  team_id st' = team_id st ∧ data_file st' = data_file st.

(** The agent is as before up to its table. *)
Definition same_settings {num} (ag ag' : agent num) : Prop :=
  ag' = set_Qtable ag (Qtable ag').

Section Vocabulary.
Context {num W G : Type} `{!PyNum num, !WorldInterface num W, !RandomSource num G}.

(** The entry of the table for a pair, 0 when the pair was never written. *)
Definition entry (ag : agent num) (k : pyval * string) : num :=
  default nzero (Qtable ag !! k).

(** The exploration rate at the start of episode [n], counted from 0. *)
Definition epsilon_at (ag : agent num) (n : nat) : num :=
  epsilon (Nat.iter n decay ag).

(** One observed transition: state key, action, reward, next key, done. *)
Definition transition : Type := pyval * string * num * pyval * bool.

Definition pair_of (t : transition) : pyval * string := (t.1.1.1.1, t.1.1.1.2).

Definition learn_one (ag : agent num) (t : transition) : outcome (agent num) :=
  learn ag t.1.1.1.1 t.1.1.1.2 t.1.1.2 t.1.2 t.2.

(** Successive calls of [learn], one per transition. *)
Fixpoint learn_all (ag : agent num) (ts : list transition) : outcome (agent num) :=
  match ts with
  | [] => Ret ag
  | t :: ts' => ag' ← learn_one ag t; learn_all ag' ts'
  end.

(** The reward [train] reads from a result, and the total of an episode as
    [total += reward] accumulates it. *)
Definition reward_of (res : result num) : num := default nzero (r_reward res).

Definition episode_total (moves : list (string * result num)) : num :=
  fold_left nadd (reward_of <$> moves.*2) nzero.

(** The calls of one episode: enter, locate, then the moves. *)
Definition episode_events (world : string) (ep : result num * list (string * result num))
    : list (event num) :=
  EvEnter world :: EvLocate ep.1 :: ((λ mr, EvMove world mr.1 mr.2) <$> ep.2).

(** The running maximum [train] keeps, from [float('-inf')]. *)
Definition best_of_totals (totals : list num) : ext num :=
  fold_left (λ best t, ext_max2 best (Fin t)) totals NegInf.

(** From server state [w], every episode is over within [k] moves, whatever
    moves are made, and every result on the way is good. *)
Fixpoint ends_within (k : nat) (w : W) : Prop :=
  match k with
  | O => False
  | S k' =>
      ∀ world move, ∃ (res : result num) w',
        srv_move w world move = (Ret res, w') ∧ good_result res = true ∧
        (default false (r_completed res) = true ∨ ends_within k' w')
  end.

(** A server that always lets the agent in, reports a good location, and
    ends every episode within [k] moves. *)
Definition bounded_world (k : nat) : Prop :=
  ∀ (w : W) world, ∃ (r : result num) w1,
    srv_enter w world = (Ret r, w1) ∧
    ∃ (loc : result num) w2,
      srv_location w1 = (Ret loc, w2) ∧ good_result loc = true ∧ ends_within k w2.

End Vocabulary.

(** ** Example collaborators *)

(** A server that answers every move with position (0,0), reward 1 and
    completion, in world [w]. *)
Inductive stub : Type := Stub.

Definition stub_result : result Q :=
  {| r_worldId := Some (PyStr "w");
     r_position := Some (PyList [PyInt 0; PyInt 0]);
     r_reward := Some 1%Q;
     r_completed := Some true |}.

#[global] Instance stub_world : WorldInterface Q stub := {|
  srv_enter w _ := (Ret {| r_worldId := None; r_position := None;
                           r_reward := None; r_completed := None |}, w);
  srv_location w := (Ret stub_result, w);
  srv_move w _ _ := (Ret stub_result, w);
|}.

(** A server that plays a script: the location it reports, then one result
    per move, and a transport failure when the script is over. *)
Record script : Type := {
  sc_location : result Q;
  sc_moves : list (result Q);
}.

#[global] Instance script_world : WorldInterface Q script := {|
  srv_enter w _ := (Ret {| r_worldId := None; r_position := None;
                           r_reward := None; r_completed := None |}, w);
  srv_location w := (Ret (sc_location w), w);
  srv_move w _ _ :=
    match sc_moves w with
    | [] => (Raise HTTPError, w)
    | r :: rs => (Ret r, {| sc_location := sc_location w; sc_moves := rs |})
    end;
|}.

(** A result that lacks the position and the completion flag, and one that
    has a position and nothing else. *)
Definition no_position : result Q :=
  {| r_worldId := Some (PyStr "w"); r_position := None;
     r_reward := Some 1%Q; r_completed := None |}.

Definition position_only : result Q :=
  {| r_worldId := None; r_position := Some (PyList [PyInt 0; PyInt 1]);
     r_reward := None; r_completed := None |}.

(** A generator that plays a list of draws round and round: [random()] is
    the draw over 100, [choice] uses the draw as it is. *)
Record draws : Type := { next_draws : list nat }.

Definition draw (g : draws) : nat * draws :=
  match next_draws g with
  | [] => (O, g)
  | n :: ns => (n, {| next_draws := ns ++ [n] |})
  end.

#[global] Instance draws_source : RandomSource Q draws := {|
  rnd_random g := let '(n, g') := draw g in (Z.of_nat n # 100, g');
  rnd_below g _ := draw g;
|}.

(** An agent over [Q] with learning rate 1/2 and discount 9/10, in world
    [w], and the key of the corner (0,0) of that world. *)
Definition agent0 : agent Q :=
  init "w" None (1 # 2)%Q (9 # 10)%Q 1%Q 3 (1 # 100)%Q (1 # 2)%Q.

Definition corner : pyval := PyTuple [PyStr "w"; PyTuple [PyInt 0; PyInt 0]].

Definition start {W} (ag : agent Q) (w : W) (ns : list nat) : state Q W draws :=
  {| self := ag; server := w; rng := {| next_draws := ns |}; team_id := "1449";
     data_file := ∅; trace := [] |}.

(** ** Vocabulary of the further properties *)


(** The items of the key of an observation: those of a list or tuple, the
    observation itself otherwise. *)
Definition key_items (v : pyval) : list pyval :=
  match v with
  | PyTuple items | PyList items => items
  | _ => [v]
  end.

(** The shape of the keys [train] builds: a pair whose second item is a
    tuple. *)
Definition observed_key (key : pyval) : bool :=
  match key with
  | PyTuple [_; PyTuple _] => true
  | _ => false
  end.

Definition is_store {num} (ev : event num) : bool :=
  match ev with
  | EvStore _ _ => true
  | _ => false
  end.

Section MoreVocabulary.
Context {num : Type} `{!PyNum num}.

(** The parts of a transition. *)
Definition t_state (t : transition (num:=num)) : pyval := t.1.1.1.1.
Definition t_action (t : transition (num:=num)) : string := t.1.1.1.2.
Definition t_reward (t : transition (num:=num)) : num := t.1.1.2.
Definition t_next (t : transition (num:=num)) : pyval := t.1.2.
Definition t_done (t : transition (num:=num)) : bool := t.2.

(** A transition that [train] learns from: its keys have the shape of
    observations, its action is a cardinal direction or one of the agent's,
    and its action, reward and completion are those of a move among the
    events. *)
Definition from_move (evs : list (event num)) (dirs : list string)
    (t : transition (num:=num)) : Prop :=
  observed_key (t_state t) = true ∧ observed_key (t_next t) = true ∧
  t_action t ∈ ["N"; "S"; "W"; "E"] ++ dirs ∧
  ∃ world res, EvMove world (t_action t) res ∈ evs ∧
    t_reward t = reward_of res ∧ t_done t = default false (r_completed res).

(** An outcome other than a returned value. *)
Definition failed {A} (o : outcome A) : Prop :=
  match o with
  | Ret _ => False
  | _ => True
  end.

End MoreVocabulary.

(** Every value of the table is within [-B, B]. *)
Definition table_within (B : Q) (tbl : gmap (pyval * string) Q) : Prop :=
  ∀ k v, tbl !! k = Some v → (- B <= v)%Q ∧ (v <= B)%Q.

(** The start rate times the decay factor [n] times over. *)
Definition decayed (ag : agent Q) (n : nat) : Q :=
  Nat.iter n (λ e, (e * decay_rate ag)%Q) (epsilon ag).

(** ** APIClient.get_all_status *)

(** The results of the index and world servers, as far as [get_all_status]
    reads them: the [code] and the [runs] of a runs result, a list of run
    records when it is there, and the [worldId] and [runId] of a location. *)
Record runs_reply (Run : Type) : Type := {
  rr_code : option pyval;
  rr_runs : option (list Run);
}.
Arguments rr_code {Run} _.
Arguments rr_runs {Run} _.

Record location_reply : Type := {
  lr_worldId : option pyval;
  lr_runId : option pyval;
}.

(** The three requests [get_all_status] can make, answered by a server in
    state [W]; a failed request raises. *)
Class StatusInterface (Run Enter W : Type) : Type := {
  sv_runs : W → Z → outcome (runs_reply Run) * W;
  sv_location : W → outcome location_reply * W;
  sv_enter : W → string → outcome Enter * W;
}.

Inductive status_call : Type :=
  | CallRuns (count : Z)
  | CallLocation
  | CallEnter (world : string).

(** The dict [get_all_status] returns; [enter] is the answer of
    [enter_world] or the dict [{"currentRun": runId}]. *)
Record status (Run Enter : Type) : Type := {
  last_run : option Run;
  location : location_reply;
  enter : Enter + option pyval;
}.
Arguments last_run {Run Enter} _.
Arguments location {Run Enter} _.
Arguments enter {Run Enter} _.

Section Status.
Context {Run Enter W : Type} `{!StatusInterface Run Enter W}.

(** [get_all_status(world_id)] from server state [w]: the outcome, the
    state of the server after it, and the requests made, in order. *)
Definition get_all_status (world_id : string) (w : W)
    : outcome (status Run Enter) * W * list status_call :=
  match sv_runs w 1 with
  | (Ret runs_resp, w1) =>
      let last_run :=
        if decide (rr_code runs_resp = Some (PyStr "OK"))
        then last (default [] (rr_runs runs_resp))
        else None in
      match sv_location w1 with
      | (Ret loc, w2) =>
          if decide (lr_worldId loc = Some (PyStr "-1")) then
            match sv_enter w2 world_id with
            | (Ret ans, w3) =>
                (Ret {| last_run := last_run; location := loc; enter := inl ans |},
                 w3, [CallRuns 1; CallLocation; CallEnter world_id])
            | (Raise e, w3) => (Raise e, w3, [CallRuns 1; CallLocation; CallEnter world_id])
            | (Diverge, w3) => (Diverge, w3, [CallRuns 1; CallLocation; CallEnter world_id])
            end
          else
            (Ret {| last_run := last_run; location := loc;
                    enter := inr (lr_runId loc) |},
             w2, [CallRuns 1; CallLocation])
      | (Raise e, w2) => (Raise e, w2, [CallRuns 1; CallLocation])
      | (Diverge, w2) => (Diverge, w2, [CallRuns 1; CallLocation])
      end
  | (Raise e, w1) => (Raise e, w1, [CallRuns 1])
  | (Diverge, w1) => (Diverge, w1, [CallRuns 1])
  end.

End Status.

(** A status server for examples: it has two runs, reports the world it is
    in with run [r7], and moves to the world it is asked to enter. *)
Inductive status_stub : Type := StatusStub (world : pyval).

#[global] Instance status_stub_server : StatusInterface string string status_stub := {|
  sv_runs w _ := (Ret {| rr_code := Some (PyStr "OK");
                         rr_runs := Some ["run1"; "run2"] |}, w);
  sv_location w := (Ret {| lr_worldId := Some (match w with StatusStub v => v end);
                           lr_runId := Some (PyStr "r7") |}, w);
  sv_enter w world := (Ret "entered", StatusStub (PyStr world));
|}.

(** [q] to the power [n]. *)
Definition Qpow (q : Q) (n : nat) : Q := Nat.iter n (Qmult q) 1%Q.

(** * Properties *)

(** ** Numbers and maxima *)

#[global] Instance Q_laws : PyNumLaws Q.
Proof.
  split; unfold nle; simpl.
  - intros a b Hab. apply negb_false_iff, Qle_bool_iff.
    apply negb_true_iff in Hab.
    destruct (Qlt_le_dec b a) as [Hlt|Hle]; [by apply Qlt_le_weak|].
    apply Qle_bool_iff in Hle. congruence.
  - intros a b c Hab Hbc.
    apply negb_false_iff, Qle_bool_iff in Hab.
    apply negb_false_iff, Qle_bool_iff in Hbc.
    apply negb_false_iff, Qle_bool_iff. by apply Qle_trans with b.
  - intros a. by apply Qeq_bool_iff.
Qed.

Lemma Q_nle (a b : Q) : nle a b ↔ (a <= b)%Q.
Proof.
  unfold nle; simpl. rewrite negb_false_iff. apply Qle_bool_iff.
Qed.

Section Maxima.
Context {num : Type} `{!PyNum num, !PyNumLaws num}.

Lemma nle_refl (a : num) : nle a a.
Proof.
  unfold nle. destruct (ngtb a a) eqn:E; [|done].
  by rewrite (ngtb_asym _ _ E) in E.
Qed.

Lemma py_max2_l (a b : num) : nle a (py_max2 a b).
Proof.
  unfold py_max2. destruct (ngtb b a) eqn:E.
  - by apply ngtb_asym.
  - apply nle_refl.
Qed.

Lemma py_max2_r (a b : num) : nle b (py_max2 a b).
Proof.
  unfold py_max2. destruct (ngtb b a) eqn:E; [apply nle_refl | done].
Qed.

Lemma py_max2_cases (a b : num) : py_max2 a b = a ∨ py_max2 a b = b.
Proof. unfold py_max2. destruct (ngtb b a); auto. Qed.

(** The running maximum dominates its start and every item, and is one of
    them. *)
Lemma fold_max_upper (l : list num) (x : num) :
  nle x (fold_left py_max2 l x) ∧ ∀ y, y ∈ l → nle y (fold_left py_max2 l x).
Proof.
  revert x. induction l as [|a l IH]; intros x; simpl.
  - split; [apply nle_refl | intros y Hy; by apply elem_of_nil in Hy].
  - destruct (IH (py_max2 x a)) as [Hacc Hall]. split.
    + eapply nle_trans; [apply py_max2_l | exact Hacc].
    + intros y [->|Hy]%elem_of_cons; [|by apply Hall].
      eapply nle_trans; [apply py_max2_r | exact Hacc].
Qed.

Lemma fold_max_elem (l : list num) (x : num) : fold_left py_max2 l x ∈ x :: l.
Proof.
  revert x. induction l as [|a l IH]; intros x; simpl; [by left|].
  specialize (IH (py_max2 x a)).
  apply elem_of_cons in IH as [->|IH].
  - destruct (py_max2_cases x a) as [->| ->]; [left | right; left].
  - right; by right.
Qed.

Lemma py_max_spec (l : list num) :
  l ≠ [] → ∃ m, py_max l = Ret m ∧ m ∈ l ∧ ∀ y, y ∈ l → nle y m.
Proof.
  destruct l as [|x l]; [done|]. intros _. exists (fold_left py_max2 l x).
  split; [done|]. split; [apply fold_max_elem|].
  destruct (fold_max_upper l x) as [Hx Hl].
  intros y [->|Hy]%elem_of_cons; auto.
Qed.

End Maxima.

(** ** The value table *)

Section Learn.
Context {num : Type} `{!PyNum num}.
Implicit Types (ag : agent num) (state_key next_key : pyval) (action : string).

Lemma q_values_hashable ag key dirs :
  hashable key = true → q_values ag key dirs = Ret ((λ d, entry ag (key, d)) <$> dirs).
Proof.
  intros Hk. unfold q_values. induction dirs as [|d dirs IH]; [done|].
  cbn [mapM]. rewrite IH. unfold dict_get at 1. simpl. by rewrite Hk.
Qed.

Lemma learn_done ag state_key action reward next_key :
  hashable state_key = true →
  learn ag state_key action reward next_key true =
    Ret (set_Qtable ag (<[(state_key, action) :=
           (entry ag (state_key, action)
            + alpha ag * (reward - entry ag (state_key, action)))%py]> (Qtable ag))).
Proof.
  intros Hk. unfold learn, dict_get, dict_set. simpl. by rewrite Hk.
Qed.

Lemma learn_not_done ag state_key action reward next_key m :
  hashable state_key = true → hashable next_key = true →
  py_max ((λ d, entry ag (next_key, d)) <$> directions ag) = Ret m →
  learn ag state_key action reward next_key false =
    Ret (set_Qtable ag (<[(state_key, action) :=
           (entry ag (state_key, action)
            + alpha ag * (reward + gamma ag * m - entry ag (state_key, action)))%py]>
           (Qtable ag))).
Proof.
  intros Hk Hn Hm. unfold learn. rewrite (q_values_hashable _ _ _ Hn).
  unfold dict_get, dict_set. simpl. rewrite Hk. simpl. rewrite Hm. done.
Qed.

(** Whenever [learn] returns, the agent it leaves differs from the one it
    started from in one entry of the table only. *)
Lemma learn_inv ag state_key action reward next_key done ag' :
  learn ag state_key action reward next_key done = Ret ag' →
  ∃ v, ag' = set_Qtable ag (<[(state_key, action) := v]> (Qtable ag)).
Proof.
  unfold learn, dict_get, dict_set. simpl.
  destruct (hashable state_key); [|done]. simpl.
  destruct done; simpl.
  - intros [= <-]. eauto.
  - destruct (q_values ag next_key (directions ag)) as [vals| |]; [|done..]. simpl.
    destruct (py_max vals) as [m| |]; [|done..]. simpl.
    intros [= <-]. eauto.
Qed.

(** Calls of [learn] on other pairs leave the entry of a pair alone. *)
Lemma learn_all_frame (ts : list transition) ag final (k : pyval * string) :
  (∀ t, t ∈ ts → pair_of t ≠ k) →
  learn_all ag ts = Ret final → Qtable final !! k = Qtable ag !! k.
Proof.
  revert ag. induction ts as [|t ts IH]; intros ag Hts; simpl.
  - by intros [= <-].
  - destruct (learn_one ag t) as [ag'| |] eqn:Ht; [|done..]. simpl.
    intros Hfin. rewrite (IH ag'); [|set_solver|done].
    destruct t as [[[[s act] r] nk] dn]. unfold learn_one in Ht. simpl in Ht.
    destruct (learn_inv _ _ _ _ _ _ _ Ht) as [w ->]. simpl.
    apply lookup_insert_ne. apply (Hts (s, act, r, nk, dn)). by left.
Qed.

End Learn.

Section LearnClaims.
Context {num : Type} `{!PyNum num}.
Implicit Types (ag : agent num) (state_key next_key : pyval) (action : string).

(** C1. A terminal transition with reward [r] sets the entry of
    [(state_key, action)] to [old + alpha * (r - old)], where [old] is the
    prior entry, 0 for an unseen pair.  The new value is a function of
    [old], [alpha] and [r] alone: the discount does not occur in it, and the
    call succeeds whatever [next_key] is, hashable or not, since the table
    is not read at the next state. *)
Theorem learn_terminal_update ag state_key action reward next_key :
  hashable state_key = true →
  ∃ ag', learn ag state_key action reward next_key true = Ret ag' ∧
    Qtable ag' !! (state_key, action) =
      Some (entry ag (state_key, action)
            + alpha ag * (reward - entry ag (state_key, action)))%py.
Proof.
  intros Hk. eexists. split; [by apply learn_done|].
  simpl. apply lookup_insert_eq.
Qed.

(** C5. A call of [learn] that returns has overwritten the entry of the
    pair [(state_key, action)] and nothing else: every other entry of the
    table is as before.  The entry then keeps the value this call computed
    through any later calls of [learn] on other pairs, so a pair always
    holds the last value computed for it. *)
Theorem learn_overwrites_one_entry ag state_key action reward next_key done ag' :
  learn ag state_key action reward next_key done = Ret ag' →
  (∃ v, Qtable ag' = <[(state_key, action) := v]> (Qtable ag)) ∧
  (∀ k, k ≠ (state_key, action) → Qtable ag' !! k = Qtable ag !! k) ∧
  (∀ ts final,
     (∀ t, t ∈ ts → pair_of t ≠ (state_key, action)) →
     learn_all ag' ts = Ret final →
     Qtable final !! (state_key, action) = Qtable ag' !! (state_key, action)).
Proof.
  intros Hl. split; [|split].
  - destruct (learn_inv _ _ _ _ _ _ _ Hl) as [v ->]. eauto.
  - destruct (learn_inv _ _ _ _ _ _ _ Hl) as [v ->]. simpl.
    intros k Hk. by apply lookup_insert_ne.
  - intros ts final Hts Hfin. by apply (learn_all_frame ts).
Qed.

End LearnClaims.

Section LearnMaxClaims.
Context {num : Type} `{!PyNum num, !PyNumLaws num}.
Implicit Types (ag : agent num) (state_key next_key : pyval) (action : string).

(** C2. A non-terminal transition with reward [r] sets the entry of
    [(state_key, action)] to [old + alpha * (r + gamma * m - old)], where
    [old] is the prior entry and [m] is the maximum, over all the agent's
    directions, of the prior entries of [(next_key, direction)], unseen pairs
    counting 0: [m] is one of these entries and none of them exceeds it. *)
Theorem learn_nonterminal_update ag state_key action reward next_key :
  hashable state_key = true → hashable next_key = true → directions ag ≠ [] →
  ∃ ag' m, learn ag state_key action reward next_key false = Ret ag' ∧
    Qtable ag' !! (state_key, action) =
      Some (entry ag (state_key, action)
            + alpha ag * (reward + gamma ag * m - entry ag (state_key, action)))%py ∧
    (∃ d, d ∈ directions ag ∧ m = entry ag (next_key, d)) ∧
    (∀ d, d ∈ directions ag → (entry ag (next_key, d) <= m)%py).
Proof.
  intros Hk Hn Hd.
  destruct (py_max_spec ((λ d, entry ag (next_key, d)) <$> directions ag))
    as (m & Hm & Hin & Hub).
  { by destruct (directions ag). }
  exists (set_Qtable ag (<[(state_key, action) :=
           (entry ag (state_key, action)
            + alpha ag * (reward + gamma ag * m - entry ag (state_key, action)))%py]>
           (Qtable ag))), m.
  split; [by apply learn_not_done|]. split; [simpl; apply lookup_insert_eq|]. split.
  - apply list_elem_of_fmap in Hin as (d & -> & Hd'). eauto.
  - intros d Hd'. apply Hub. apply list_elem_of_fmap. eauto.
Qed.

End LearnMaxClaims.

Lemma learn_terminal_update_witness :
  ∃ ag', learn agent0 corner "N" 1%Q (PyList []) true = Ret ag' ∧
    Qtable ag' !! (corner, "N") =
      Some (entry agent0 (corner, "N")
            + alpha agent0 * (1%Q - entry agent0 (corner, "N")))%py.
Proof. apply (learn_terminal_update agent0 corner "N" 1%Q (PyList [])). reflexivity. Defined.

Lemma learn_nonterminal_update_witness :
  ∃ ag' m, learn agent0 corner "N" 1%Q corner false = Ret ag' ∧
    Qtable ag' !! (corner, "N") =
      Some (entry agent0 (corner, "N")
            + alpha agent0 * (1%Q + gamma agent0 * m - entry agent0 (corner, "N")))%py ∧
    (∃ d, d ∈ directions agent0 ∧ m = entry agent0 (corner, d)) ∧
    (∀ d, d ∈ directions agent0 → (entry agent0 (corner, d) <= m)%py).
Proof.
  apply (learn_nonterminal_update agent0 corner "N" 1%Q corner);
    [reflexivity | reflexivity | discriminate].
Defined.

Lemma learn_overwrites_one_entry_witness :
  let ag' := set_Qtable agent0 {[ (corner, "N") := (0 + (1 # 2) * (1 - 0))%Q ]} in
  (∃ v, Qtable ag' = <[(corner, "N") := v]> (Qtable agent0)) ∧
  (∀ k, k ≠ (corner, "N") → Qtable ag' !! k = Qtable agent0 !! k) ∧
  (∀ ts final,
     (∀ t, t ∈ ts → pair_of t ≠ (corner, "N")) →
     learn_all ag' ts = Ret final →
     Qtable final !! (corner, "N") = Qtable ag' !! (corner, "N")).
Proof.
  apply (learn_overwrites_one_entry agent0 corner "N" 1%Q corner true).
  reflexivity.
Defined.

(** ** Legal directions *)

Section Directions.
Context {num : Type} `{!PyNum num}.
Implicit Types (ag : agent num).

(** On a pair of integers [valid_directions] is the four guards in order,
    whether the pair is a list or a tuple. *)
Lemma valid_directions_pair ag position x y size :
  position = PyList [PyInt x; PyInt y] ∨ position = PyTuple [PyInt x; PyInt y] →
  valid_directions ag position size =
    Ret (py_or ((if 0 <? x then ["N"] else []) ++ (if x <? size - 1 then ["S"] else [])
                ++ (if 0 <? y then ["W"] else []) ++ (if y <? size - 1 then ["E"] else []))%list
               (directions ag)).
Proof.
  intros [-> | ->]; unfold valid_directions; simpl;
    by destruct (0 <? x), (x <? size - 1), (0 <? y), (y <? size - 1).
Qed.

(** C6. On a grid of size 40 the legal directions are exactly S and E at
    (0,0), N and W at (39,39), N and E at (39,0); and at any position of a
    grid of size at least 2, a direction is returned exactly when the move
    it stands for keeps both coordinates on the grid. *)
Theorem valid_directions_on_grid ag :
  valid_directions ag (PyTuple [PyInt 0; PyInt 0]) 40 = Ret ["S"; "E"] ∧
  valid_directions ag (PyTuple [PyInt 39; PyInt 39]) 40 = Ret ["N"; "W"] ∧
  valid_directions ag (PyTuple [PyInt 39; PyInt 0]) 40 = Ret ["N"; "E"] ∧
  ∀ position x y size,
    position = PyList [PyInt x; PyInt y] ∨ position = PyTuple [PyInt x; PyInt y] →
    2 ≤ size → on_grid size (x, y) →
    ∃ dirs, valid_directions ag position size = Ret dirs ∧
      ∀ d, d ∈ dirs ↔ ∃ p, moved d (x, y) = Some p ∧ on_grid size p.
Proof.
  split; [done|]. split; [done|]. split; [done|].
  intros position x y size Hpos Hsize [Hx Hy]. simpl in Hx, Hy.
  rewrite (valid_directions_pair _ _ x y size Hpos). eexists. split; [done|].
  intros d. unfold moved, on_grid.
  destruct (Z.ltb_spec 0 x), (Z.ltb_spec x (size - 1)),
    (Z.ltb_spec 0 y), (Z.ltb_spec y (size - 1)); simpl; try lia;
    (split;
     [ rewrite ?elem_of_cons, elem_of_nil; intros Hd;
       repeat destruct Hd as [->|Hd]; try done; simpl;
       eexists; (split; [reflexivity|]); simpl; lia
     | intros (p & Hp & Hgrid); repeat case_decide; simplify_eq; simpl in Hgrid;
       rewrite ?elem_of_cons; first [lia | tauto] ]).
Qed.

End Directions.

Lemma valid_directions_on_grid_witness :
  ∃ dirs, valid_directions agent0 (PyList [PyInt 0; PyInt 39]) 40 = Ret dirs ∧
    ∀ d, d ∈ dirs ↔ ∃ p, moved d (0, 39) = Some p ∧ on_grid 40 p.
Proof.
  apply (valid_directions_on_grid agent0); [by left | lia | unfold on_grid; simpl; lia].
Defined.

(** ** State keys *)

(** The observations [(5, (3,4))] and [(5, [3,4])] get different keys, and
    the second key, holding a list, is not hashable. *)
Lemma state_key_nested_list_differs :
  _state_key (PyTuple [PyInt 5; PyTuple [PyInt 3; PyInt 4]])
    ≠ _state_key (PyTuple [PyInt 5; PyList [PyInt 3; PyInt 4]])
  ∧ hashable (_state_key (PyTuple [PyInt 5; PyList [PyInt 3; PyInt 4]])) = false.
Proof. split; [discriminate | reflexivity]. Qed.

(** C4, amended. [_state_key] gives the same key, the tuple of the items,
    for an observation that is a list and for the tuple of the same items,
    and the one-item tuple of a scalar; the key is hashable exactly when the
    items are, as nested components are kept as they are.  [train] converts
    the position with [tuple] before it calls [_state_key], so the keys it
    builds for a position given as a list and as a tuple are the same:
    world 5 with position [3,4] or (3,4) has key (5, (3,4)). *)
Theorem state_key_normalization :
  (∀ items, _state_key (PyList items) = PyTuple items
            ∧ _state_key (PyTuple items) = PyTuple items) ∧
  (_state_key PyNone = PyTuple [PyNone]
   ∧ (∀ z, _state_key (PyInt z) = PyTuple [PyInt z])
   ∧ (∀ s, _state_key (PyStr s) = PyTuple [PyStr s])) ∧
  (∀ v, ∃ items, _state_key v = PyTuple items
                 ∧ hashable (_state_key v) = forallb hashable items) ∧
  (∀ num (res : result num) items,
     observe res (PyList items) = observe res (PyTuple items)
     ∧ observe res (PyList items)
       = Ret (PyTuple [default PyNone (r_worldId res); PyTuple items])) ∧
  (∀ num (p : option pyval) (r : option num) (c : option bool),
     let res := {| r_worldId := Some (PyInt 5); r_position := p;
                   r_reward := r; r_completed := c |} in
     observe res (PyList [PyInt 3; PyInt 4])
       = Ret (PyTuple [PyInt 5; PyTuple [PyInt 3; PyInt 4]])
     ∧ observe res (PyTuple [PyInt 3; PyInt 4])
       = Ret (PyTuple [PyInt 5; PyTuple [PyInt 3; PyInt 4]])).
Proof.
  split; [done|]. split; [done|]. split; [|done].
  intros v. destruct v as [| | |items|items]; simpl; eauto.
  all: eexists; split; [done|]; by rewrite ?andb_true_r.
Qed.

(** ** Choosing a direction *)

Section Choose.
Context {num G : Type} `{!PyNum num, !RandomSource num G}.
Implicit Types (ag : agent num) (g : G).

Lemma choice_elem {A} (seq : list A) g :
  seq ≠ [] → ∃ x g', choice seq g = (Ret x, g') ∧ x ∈ seq.
Proof.
  destruct seq as [|a seq]; [done|]. intros _. unfold choice.
  destruct (rnd_below g (length (a :: seq))) as [i g'] eqn:E.
  eexists _, g'. split; [done|].
  apply list_elem_of_In, nth_In, Nat.mod_upper_bound. simpl. lia.
Qed.

Lemma best_of_elem (f : string → num) dirs max_q d :
  d ∈ best_of dirs (f <$> dirs) max_q ↔ d ∈ dirs ∧ neqb (f d) max_q = true.
Proof.
  unfold best_of. induction dirs as [|a dirs IH]; simpl.
  - rewrite elem_of_nil. tauto.
  - destruct (neqb (f a) max_q) eqn:E; simpl;
      rewrite ?elem_of_cons, IH; [|split].
    + split; [intros [->|[]]; auto | tauto].
    + tauto.
    + intros [[->|?] ?]; [congruence | tauto].
Qed.

End Choose.

Section ChooseClaims.
Context {num G : Type} `{!PyNum num, !PyNumLaws num, !RandomSource num G}.
Implicit Types (ag : agent num) (g : G).

Lemma valid_directions_nonempty ag position x y size :
  position = PyList [PyInt x; PyInt y] ∨ position = PyTuple [PyInt x; PyInt y] →
  directions ag ≠ [] →
  ∃ dirs, valid_directions ag position size = Ret dirs ∧ dirs ≠ [] ∧
    (x ≤ 0 → size - 1 ≤ x → y ≤ 0 → size - 1 ≤ y → dirs = directions ag).
Proof.
  intros Hpos Hd. rewrite (valid_directions_pair _ _ x y size Hpos).
  eexists. split; [done|].
  destruct (Z.ltb_spec 0 x), (Z.ltb_spec x (size - 1)),
    (Z.ltb_spec 0 y), (Z.ltb_spec y (size - 1)); simpl; split; try done; lia.
Qed.

Lemma choose_direction_elem ag state_key valid_dirs g :
  hashable state_key = true → directions ag ≠ [] →
  ∃ d g', choose_direction ag state_key valid_dirs g = (Ret d, g') ∧
    d ∈ py_or (default [] valid_dirs) (directions ag).
Proof.
  intros Hk Hd. unfold choose_direction.
  set (dirs := py_or (default [] valid_dirs) (directions ag)).
  assert (Hne : dirs ≠ []).
  { unfold dirs. by destruct (default [] valid_dirs). }
  destruct (rnd_random g) as [u g1]. destruct (nltb u (epsilon ag)).
  - by apply choice_elem.
  - rewrite (q_values_hashable _ _ _ Hk). simpl.
    destruct (py_max_spec ((λ d, entry ag (state_key, d)) <$> dirs))
      as (m & Hm & Hin & _); [by destruct dirs|].
    rewrite Hm. simpl.
    apply list_elem_of_fmap in Hin as (d0 & -> & Hd0).
    destruct (choice_elem (best_of dirs ((λ d, entry ag (state_key, d)) <$> dirs)
                             (entry ag (state_key, d0))) g1) as (d & g' & Hc & Hin).
    { intros Hnil.
      assert (Hb : d0 ∈ best_of dirs ((λ d, entry ag (state_key, d)) <$> dirs)
                          (entry ag (state_key, d0))).
      { apply (best_of_elem (λ d, entry ag (state_key, d))).
        split; [done | apply neqb_refl]. }
      rewrite Hnil in Hb. by apply elem_of_nil in Hb. }
    exists d, g'. split; [done|].
    by apply (best_of_elem (λ d, entry ag (state_key, d))) in Hin as [? _].
Qed.

(** C7. The pipeline never ends up with no candidate.  At every position
    that is a pair of integers [valid_directions] returns a list that is not
    empty, the agent's full set of directions when no direction is legal;
    and [choose_direction], whether the legal list it gets is absent, empty
    or not, returns one of its candidates: a member of that list, or of the
    full set when the list is absent or empty. *)
Theorem selection_never_empty ag :
  directions ag ≠ [] →
  (∀ position x y size,
     position = PyList [PyInt x; PyInt y] ∨ position = PyTuple [PyInt x; PyInt y] →
     ∃ dirs, valid_directions ag position size = Ret dirs ∧ dirs ≠ [] ∧
       (x ≤ 0 → size - 1 ≤ x → y ≤ 0 → size - 1 ≤ y → dirs = directions ag)) ∧
  (∀ state_key g, hashable state_key = true →
     (∃ d g', choose_direction ag state_key None g = (Ret d, g') ∧ d ∈ directions ag) ∧
     (∃ d g', choose_direction ag state_key (Some []) g = (Ret d, g')
              ∧ d ∈ directions ag) ∧
     (∀ valid, valid ≠ [] →
        ∃ d g', choose_direction ag state_key (Some valid) g = (Ret d, g')
                ∧ d ∈ valid)).
Proof.
  intros Hd. split.
  - intros position x y size Hpos. by apply valid_directions_nonempty.
  - intros state_key g Hk. split; [|split].
    + by apply (choose_direction_elem ag state_key None).
    + by apply (choose_direction_elem ag state_key (Some [])).
    + intros valid Hv.
      destruct (choose_direction_elem ag state_key (Some valid) g Hk Hd)
        as (d & g' & Hc & Hin).
      exists d, g'. split; [done|]. by destruct valid.
Qed.

End ChooseClaims.

(** ** Running the program *)

Section Steps.
Context {num W G : Type}.
Implicit Types (st : state num W G) (ag : agent num).

Lemma bind_ret {A B} (m : prog num W G A) (k : A → prog num W G B) st a st1 :
  m st = (Ret a, st1) → (m ≫= k) st = k a st1.
Proof. intros Hm. unfold mbind, prog_bind. by rewrite Hm. Qed.

Lemma bind_ret_inv {A B} (m : prog num W G A) (k : A → prog num W G B) st b st' :
  (m ≫= k) st = (Ret b, st') → ∃ a st1, m st = (Ret a, st1) ∧ k a st1 = (Ret b, st').
Proof.
  unfold mbind, prog_bind. destruct (m st) as [[a|e|] st1]; [eauto|done..].
Qed.

Lemma bind_raise {A B} (m : prog num W G A) (k : A → prog num W G B) st e st1 :
  m st = (Raise e, st1) → (m ≫= k) st = (Raise e, st1).
Proof. intros Hm. unfold mbind, prog_bind. by rewrite Hm. Qed.

Lemma lift_ret_inv {A} (o : outcome A) st a st1 :
  lift o st = (Ret a, st1) → o = Ret a ∧ st1 = st.
Proof. unfold lift. by intros [= -> ->]. Qed.

End Steps.

(** Run the first statement of a sequence, given how it comes out. *)
Ltac step_by tac := erewrite bind_ret; [|tac].
Ltac step := step_by ltac:(reflexivity).

Section TrainSteps.
Context {num W G : Type} `{!PyNum num, !WorldInterface num W, !RandomSource num G}.
Implicit Types (st : state num W G) (ag : agent num).

Lemma request_ret_inv f ev st (r : result num) st' :
  request f ev st = (Ret r, st') →
  ∃ w, f (server st) = (Ret r, w) ∧ server st' = w ∧ self st' = self st ∧ rng st' = rng st
       ∧ same_files st st' ∧ trace st' = trace st ++ [ev r].
Proof.
  unfold request. destruct (f (server st)) as [o w]. intros [= -> <-]. simpl.
  exists w. by repeat split.
Qed.

Lemma episode_loop_inv fuel position state_key total st t st' :
  episode_loop fuel position state_key total st = (Ret t, st') →
  ∃ moves, moves ≠ [] ∧
    trace st' = trace st ++ ((λ mr, EvMove (world_id (self st)) mr.1 mr.2) <$> moves) ∧
    t = fold_left nadd (reward_of <$> moves.*2) total ∧
    same_settings (self st) (self st') ∧ same_files st st'.
Proof.
  revert position state_key total st t st'.
  induction fuel as [|fuel IH]; intros position state_key total st t st'; [done|].
  cbn [episode_loop]. intros Hrun.
  apply bind_ret_inv in Hrun as (ag & st1 & [= <- <-] & Hrun).
  apply bind_ret_inv in Hrun as (valid & st1 & [_ ->]%lift_ret_inv & Hrun).
  apply bind_ret_inv in Hrun as (move & st1 & Hmove & Hrun).
  apply bind_ret_inv in Hrun as (res & st2 & Hres & Hrun).
  apply bind_ret_inv in Hrun as (next_key & st3 & [_ ->]%lift_ret_inv & Hrun).
  apply bind_ret_inv in Hrun as (ag' & st3 & [Hlearn ->]%lift_ret_inv & Hrun).
  apply bind_ret_inv in Hrun as ([] & st3 & [= <-] & Hrun).
  unfold with_rng in Hmove.
  destruct (choose_direction _ _ _ _) as [o g] in Hmove. injection Hmove as -> <-.
  unfold make_move in Hres.
  apply request_ret_inv in Hres as (w & _ & _ & Hself & _ & [Hteam Hdata] & Htrace).
  simpl in Hself, Hteam, Hdata, Htrace.
  apply learn_inv in Hlearn as [v ->].
  destruct (default false (r_completed res)).
  - injection Hrun as <- <-. exists [(move, res)]. simpl.
    rewrite Htrace. by repeat split.
  - apply IH in Hrun as (moves & _ & Htr & -> & Hset & [Hteam' Hdata']).
    simpl in Htr, Hset, Hteam', Hdata'.
    exists ((move, res) :: moves). split; [done|]. split; [|split; [|split]].
    + rewrite Htr, Htrace. simpl. by rewrite <- app_assoc.
    + done.
    + unfold same_settings in *. rewrite Hset. by destruct (self st).
    + split; congruence.
Qed.


Lemma run_episode_inv fuel st t st' :
  run_episode fuel st = (Ret t, st') →
  ∃ loc moves, moves ≠ [] ∧
    trace st' = trace st ++ episode_events (world_id (self st)) (loc, moves) ∧
    t = episode_total moves ∧
    same_settings (self st) (self st') ∧ same_files st st'.
Proof.
  unfold run_episode. intros Hrun.
  apply bind_ret_inv in Hrun as (ag & st1 & [= <- <-] & Hrun).
  apply bind_ret_inv in Hrun as (r & st1 & Henter & Hrun).
  apply bind_ret_inv in Hrun as (loc & st2 & Hloc & Hrun).
  apply bind_ret_inv in Hrun as (state_key & st3 & [_ ->]%lift_ret_inv & Hrun).
  unfold enter_world in Henter. unfold get_location in Hloc.
  apply request_ret_inv in Henter as (w1 & _ & _ & Hself1 & _ & [Ht1 Hd1] & Htr1).
  apply request_ret_inv in Hloc as (w2 & _ & _ & Hself2 & _ & [Ht2 Hd2] & Htr2).
  apply episode_loop_inv in Hrun as (moves & Hne & Htr & -> & Hset & [Ht3 Hd3]).
  exists loc, moves. split; [done|]. split; [|split; [done|split]].
  - rewrite Htr, Htr2, Htr1, Hself2, Hself1. unfold episode_events. simpl.
    by rewrite <- !app_assoc.
  - by rewrite Hself2, Hself1 in Hset.
  - split; congruence.
Qed.

Lemma decay_set_Qtable ag tbl : decay (set_Qtable ag tbl) = set_Qtable (decay ag) tbl.
Proof. done. Qed.

Lemma iter_decay_set_Qtable n ag tbl :
  Nat.iter n decay (set_Qtable ag tbl) = set_Qtable (Nat.iter n decay ag) tbl.
Proof. induction n as [|n IH]; simpl; [done|]. by rewrite IH. Qed.

Lemma iter_decay_settings n ag :
  world_id (Nat.iter n decay ag) = world_id ag
  ∧ directions (Nat.iter n decay ag) = directions ag
  ∧ min_epsilon (Nat.iter n decay ag) = min_epsilon ag
  ∧ decay_rate (Nat.iter n decay ag) = decay_rate ag
  ∧ episodes (Nat.iter n decay ag) = episodes ag.
Proof. induction n as [|n IH]; simpl; [done | apply IH]. Qed.

Lemma train_loop_inv fuel n best st b st' :
  train_loop fuel n best st = (Ret b, st') →
  ∃ eps, length eps = n ∧
    trace st' = trace st ++ concat (episode_events (world_id (self st)) <$> eps) ∧
    b = fold_left (λ best t, ext_max2 best (Fin t)) (episode_total <$> eps.*2) best ∧
    self st' = set_Qtable (Nat.iter n decay (self st)) (Qtable (self st')) ∧
    same_files st st'.
Proof.
  revert best st. induction n as [|n IH]; intros best st; cbn [train_loop].
  - intros [= <- <-]. exists []. simpl. rewrite app_nil_r.
    repeat split; try done. by destruct (self st).
  - intros Hrun.
    apply bind_ret_inv in Hrun as (total & st1 & Hep & Hrun).
    apply bind_ret_inv in Hrun as (ag & st2 & [= <- <-] & Hrun).
    apply bind_ret_inv in Hrun as ([] & st2 & [= <-] & Hrun).
    apply run_episode_inv in Hep as (loc & moves & _ & Htr1 & -> & Hset & [Ht1 Hd1]).
    apply IH in Hrun as (eps & Hlen & Htr & -> & Hself & [Ht2 Hd2]).
    simpl in Htr, Hself, Ht2, Hd2.
    exists ((loc, moves) :: eps). split; [simpl; by rewrite Hlen|].
    unfold same_settings in Hset. rewrite Hset in Htr, Hself.
    rewrite decay_set_Qtable, iter_decay_set_Qtable in Hself.
    split; [|split; [done|split]].
    + rewrite Htr, Htr1. simpl. by rewrite <- !app_assoc.
    + rewrite Hself at 1. by rewrite Nat.iter_succ_r.
    + split; congruence.
Qed.

Lemma alist_get_set {V} k (v : V) d : alist_get k (alist_set k v d) = Some v.
Proof.
  induction d as [|[k' v'] d IH]; simpl.
  - by rewrite decide_True.
  - destruct (decide (k' = k)) as [->|Hne]; simpl.
    + by rewrite decide_True.
    + by rewrite decide_False.
Qed.

Lemma train_inv fuel st b st' :
  train fuel st = (Ret b, st') →
  ∃ eps, length eps = Z.to_nat (episodes (self st)) ∧
    b = best_of_totals (episode_total <$> eps.*2) ∧
    trace st' = trace st ++ concat (episode_events (world_id (self st)) <$> eps)
                  ++ [EvStore (world_id (self st)) b] ∧
    alist_get (world_id (self st)) (by_world (load_points (team_id st') (data_file st')))
      = Some b ∧
    epsilon (self st') = epsilon_at (self st) (Z.to_nat (episodes (self st))).
Proof.
  unfold train. intros Hrun.
  apply bind_ret_inv in Hrun as (ag & st1 & [= <- <-] & Hrun).
  apply bind_ret_inv in Hrun as (best & st1 & Hloop & Hrun).
  apply bind_ret_inv in Hrun as ([] & st2 & [= <-] & [= <- <-]).
  apply train_loop_inv in Hloop as (eps & Hlen & Htr & -> & Hself & [Ht Hd]).
  exists eps. split; [done|]. split; [done|]. simpl. split; [|split].
  - by rewrite Htr, <- app_assoc.
  - unfold load_points, store_points. rewrite lookup_insert_eq. simpl.
    apply alist_get_set.
  - by rewrite Hself.
Qed.

End TrainSteps.

Section TrainTotal.
Context {num W G : Type}
  `{!PyNum num, !PyNumLaws num, !WorldInterface num W, !RandomSource num G}.
Implicit Types (st : state num W G) (ag : agent num).

Lemma int_pair_inv position :
  int_pair position = true →
  ∃ x y, position = PyList [PyInt x; PyInt y] ∨ position = PyTuple [PyInt x; PyInt y].
Proof.
  destruct position as [| | |[|[] [|[] []]]|[|[] [|[] []]]]; try done; eauto.
Qed.

Lemma observe_good (res : result num) :
  good_result res = true →
  ∃ key, observe res (default (PyList []) (r_position res)) = Ret key
         ∧ hashable key = true.
Proof.
  unfold good_result. intros [Hpos Hw]%andb_true_iff.
  apply int_pair_inv in Hpos as (x & y & [-> | ->]); unfold observe; simpl;
    (eexists; split; [done|]); simpl; by rewrite Hw.
Qed.

Lemma good_result_pair (res : result num) :
  good_result res = true → int_pair (default (PyList []) (r_position res)) = true.
Proof. unfold good_result. by intros [? _]%andb_true_iff. Qed.

Lemma learn_total ag state_key action reward next_key done :
  hashable state_key = true → hashable next_key = true → directions ag ≠ [] →
  ∃ tbl, learn ag state_key action reward next_key done = Ret (set_Qtable ag tbl).
Proof.
  intros Hk Hn Hd. destruct done.
  - eexists. by apply learn_done.
  - destruct (py_max_spec ((λ d, entry ag (next_key, d)) <$> directions ag))
      as (m & Hm & _); [by destruct (directions ag)|].
    eexists. by apply learn_not_done.
Qed.

Lemma episode_loop_total k fuel position state_key total st :
  (k ≤ fuel)%nat → ends_within k (server st) →
  int_pair position = true → hashable state_key = true →
  directions (self st) ≠ [] →
  ∃ t st', episode_loop fuel position state_key total st = (Ret t, st').
Proof.
  revert fuel position state_key total st.
  induction k as [|k IH]; intros fuel position state_key total st Hfuel Hends
    Hpos Hkey Hdirs; [done|].
  destruct fuel as [|fuel]; [lia|]. cbn [episode_loop].
  apply int_pair_inv in Hpos as (x & y & Hpos).
  destruct (valid_directions_nonempty (self st) position x y default_grid_size
              Hpos Hdirs) as (valid & Hvalid & _).
  destruct (choose_direction_elem (self st) state_key (Some valid) (rng st)
              Hkey Hdirs) as (move & g' & Hmove & _).
  destruct (Hends (world_id (self st)) move) as (res & w' & Hsrv & Hgood & Hnext).
  destruct (observe_good res Hgood) as (next_key & Hobs & Hnk).
  destruct (learn_total (self st) state_key move (default nzero (r_reward res))
              next_key (default false (r_completed res)) Hkey Hnk Hdirs)
    as (tbl & Hlearn).
  step.
  step_by ltac:(unfold lift; by rewrite Hvalid).
  step_by ltac:(unfold with_rng; by rewrite Hmove).
  step_by ltac:(unfold make_move, request; simpl; by rewrite Hsrv).
  step_by ltac:(unfold lift; by rewrite Hobs).
  step_by ltac:(unfold lift; by rewrite Hlearn).
  step.
  destruct Hnext as [-> | Hnext]; [by eauto|].
  destruct (default false (r_completed res)); [by eauto|].
  apply IH; simpl; try done; [lia | by apply good_result_pair].
Qed.

Lemma run_episode_total k fuel st :
  bounded_world (num:=num) (W:=W) k → (k ≤ fuel)%nat → directions (self st) ≠ [] →
  ∃ t st', run_episode fuel st = (Ret t, st').
Proof.
  intros Hworld Hfuel Hdirs. unfold run_episode.
  destruct (Hworld (server st) (world_id (self st)))
    as (r & w1 & Henter & loc & w2 & Hloc & Hgood & Hends).
  destruct (observe_good loc Hgood) as (key & Hobs & Hkey).
  step.
  step_by ltac:(unfold enter_world, request; by rewrite Henter).
  step_by ltac:(unfold get_location, request; simpl; by rewrite Hloc).
  step_by ltac:(unfold lift; by rewrite Hobs).
  apply (episode_loop_total k); simpl; try done. by apply good_result_pair.
Qed.

Lemma train_loop_total k fuel n best st :
  bounded_world (num:=num) (W:=W) k → (k ≤ fuel)%nat → directions (self st) ≠ [] →
  ∃ b st', train_loop fuel n best st = (Ret b, st').
Proof.
  intros Hworld Hfuel. revert best st.
  induction n as [|n IH]; intros best st Hdirs; cbn [train_loop]; [by eauto|].
  destruct (run_episode_total k fuel st Hworld Hfuel Hdirs) as (t & st1 & Hep).
  destruct (run_episode_inv _ _ _ _ Hep) as (_ & _ & _ & _ & _ & Hset & _).
  step_by ltac:(exact Hep).
  step.
  step.
  apply IH. simpl. unfold same_settings in Hset. rewrite Hset. done.
Qed.

Lemma train_total k fuel st :
  bounded_world (num:=num) (W:=W) k → (k ≤ fuel)%nat → directions (self st) ≠ [] →
  ∃ b st', train fuel st = (Ret b, st').
Proof.
  intros Hworld Hfuel Hdirs. unfold train.
  destruct (train_loop_total k fuel (Z.to_nat (episodes (self st))) NegInf st
              Hworld Hfuel Hdirs) as (b & st1 & Hloop).
  step.
  step_by ltac:(exact Hloop).
  step.
  by eauto.
Qed.

End TrainTotal.

(** ** Training *)

Section BestReward.
Context {num : Type} `{!PyNum num, !PyNumLaws num}.

Lemma fold_ext_max_fin (totals : list num) (x : num) :
  fold_left (λ best t, ext_max2 best (Fin t)) totals (Fin x)
  = Fin (fold_left py_max2 totals x).
Proof.
  revert x. induction totals as [|t totals IH]; intros x; simpl; [done|].
  rewrite <- IH. f_equal. unfold ext_max2, py_max2. simpl. by destruct (ngtb t x).
Qed.

(** Over at least one episode the best reward is finite, is the total of
    one of the episodes, and no total exceeds it. *)
Lemma best_of_totals_max (totals : list num) :
  totals ≠ [] →
  ∃ m, best_of_totals totals = Fin m ∧ m ∈ totals ∧ ∀ t, t ∈ totals → (t <= m)%py.
Proof.
  destruct totals as [|x totals]; [done|]. intros _.
  exists (fold_left py_max2 totals x). unfold best_of_totals. simpl.
  split; [apply fold_ext_max_fin|]. split; [apply fold_max_elem|].
  destruct (fold_max_upper totals x) as [Hx Hl].
  intros t [->|Ht]%elem_of_cons; auto.
Qed.

End BestReward.

Section TrainClaims.
Context {num W G : Type}
  `{!PyNum num, !PyNumLaws num, !WorldInterface num W, !RandomSource num G}.
Implicit Types (st : state num W G) (ag : agent num).

(** C8. Whenever [train] returns, the calls it made are the configured
    number of episodes followed by one call that stores the returned value
    under the world identifier; the value is the running maximum, from
    negative infinity, of the totals of the episodes, each the sum of the
    rewards of the episode's moves, so with at least one episode it is the
    total of an episode that no other total exceeds; and the persisted points
    of the team hold it for the world.  And [train] does return, given room
    for [k] moves an episode, against a server that ends every episode within
    [k] moves. *)
Theorem train_returns_best_reward (fuel : nat) st :
  (∀ best st', train fuel st = (Ret best, st') →
     ∃ eps : list (result num * list (string * result num)),
       let totals := episode_total <$> eps.*2 in
       best = best_of_totals totals ∧
       length eps = Z.to_nat (episodes (self st)) ∧
       trace st' = trace st ++ concat (episode_events (world_id (self st)) <$> eps)
                     ++ [EvStore (world_id (self st)) best] ∧
       alist_get (world_id (self st))
         (by_world (load_points (team_id st') (data_file st'))) = Some best ∧
       (totals ≠ [] →
        ∃ m, best = Fin m ∧ m ∈ totals ∧ ∀ t, t ∈ totals → (t <= m)%py)) ∧
  (∀ k, bounded_world (num:=num) (W:=W) k → (k ≤ fuel)%nat →
        directions (self st) ≠ [] →
        ∃ best st', train fuel st = (Ret best, st')).
Proof.
  split.
  - intros best st' Hrun.
    destruct (train_inv _ _ _ _ Hrun) as (eps & Hlen & -> & Htrace & Hstored & _).
    exists eps. simpl. repeat split; try done. apply best_of_totals_max.
  - intros k Hworld Hfuel Hdirs. by apply (train_total k).
Qed.

(** C10. With 0 episodes configured [train] makes no call on the world
    interface: the server and the generator are as before, the only call is
    the one that stores the points.  It returns negative infinity, and
    negative infinity is what the persisted points hold for the world. *)
Theorem train_zero_episodes (fuel : nat) st :
  episodes (self st) = 0 →
  train fuel st =
    (Ret NegInf,
     {| self := self st; server := server st; rng := rng st; team_id := team_id st;
        data_file := store_points (team_id st) (data_file st) (world_id (self st)) NegInf;
        trace := trace st ++ [EvStore (world_id (self st)) NegInf] |}) ∧
  alist_get (world_id (self st))
    (by_world (load_points (team_id st)
       (store_points (team_id st) (data_file st) (world_id (self st)) NegInf)))
    = Some NegInf.
Proof.
  intros Hzero. split.
  - unfold train. step. rewrite Hzero. simpl.
    step. by step.
  - unfold load_points, store_points. rewrite lookup_insert_eq. simpl.
    apply alist_get_set.
Qed.

End TrainClaims.

Lemma stub_bounded : bounded_world (num:=Q) (W:=stub) 1.
Proof.
  intros w world. do 2 eexists. split; [done|]. do 2 eexists. split; [done|].
  split; [done|]. intros world' move. do 2 eexists. split; [done|]. split; [done|].
  by left.
Qed.

Lemma init_directions_nonempty {num} world dirs (a g e : num) n m d :
  directions (init world dirs a g e n m d) ≠ [].
Proof. simpl. by destruct dirs as [[|]|]. Qed.

Lemma train_returns_best_reward_witness :
  ∃ best st' (eps : list (result Q * list (string * result Q))),
    let totals := episode_total <$> eps.*2 in
    train 1 (start agent0 Stub [0%nat]) = (Ret best, st') ∧
    best = best_of_totals totals ∧
    length eps = 3%nat ∧
    trace st' = concat (episode_events "w" <$> eps) ++ [EvStore "w" best] ∧
    alist_get "w" (by_world (load_points (team_id st') (data_file st'))) = Some best.
Proof.
  destruct (train_returns_best_reward 1 (start agent0 Stub [0%nat])) as [Hinv Htotal].
  destruct (Htotal 1%nat stub_bounded (le_n 1) (init_directions_nonempty _ _ _ _ _ _ _ _))
    as (best & st' & Hrun).
  destruct (Hinv best st' Hrun) as (eps & Hbest & Hlen & Htrace & Hstored & _).
  exists best, st', eps.
  split; [exact Hrun|]. split; [exact Hbest|]. split; [exact Hlen|].
  split; [exact Htrace | exact Hstored].
Defined.

Lemma train_zero_episodes_witness :
  let st := start (init "w" None (1 # 2) (9 # 10) 1 0 (1 # 100) (1 # 2))%Q Stub [0%nat] in
  train 1 st =
    (Ret NegInf,
     {| self := self st; server := Stub; rng := rng st; team_id := "1449";
        data_file := store_points "1449" ∅ "w" NegInf;
        trace := [EvStore "w" NegInf] |}) ∧
  alist_get "w" (by_world (load_points "1449" (store_points "1449" ∅ "w" NegInf)))
    = Some (NegInf : ext Q).
Proof.
  apply (train_zero_episodes 1
           (start (init "w" None (1 # 2) (9 # 10) 1 0 (1 # 100) (1 # 2))%Q Stub [0%nat])).
  reflexivity.
Defined.

Lemma selection_never_empty_witness :
  (∀ position x y size,
     position = PyList [PyInt x; PyInt y] ∨ position = PyTuple [PyInt x; PyInt y] →
     ∃ dirs, valid_directions agent0 position size = Ret dirs ∧ dirs ≠ [] ∧
       (x ≤ 0 → size - 1 ≤ x → y ≤ 0 → size - 1 ≤ y → dirs = directions agent0)) ∧
  (∀ state_key (g : draws), hashable state_key = true →
     (∃ d g', choose_direction agent0 state_key None g = (Ret d, g')
              ∧ d ∈ directions agent0) ∧
     (∃ d g', choose_direction agent0 state_key (Some []) g = (Ret d, g')
              ∧ d ∈ directions agent0) ∧
     (∀ valid, valid ≠ [] →
        ∃ d g', choose_direction agent0 state_key (Some valid) g = (Ret d, g')
                ∧ d ∈ valid)).
Proof. apply (selection_never_empty agent0). apply init_directions_nonempty. Defined.

(** The scenario of a server that completes every episode on the first
    move with reward 1, over 3 episodes with learning rate 1/2: the best
    reward is 1, and the one pair acted on holds 7/8 after three visits. *)
Example train_stub_scenario :
  let run := train 1 (start agent0 Stub [0%nat]) in
  run.1 = Ret (Fin 1%Q)
  ∧ map_to_list (Qtable (self run.2)) = [((corner, "S"), (112 # 128)%Q)]
  ∧ data_file run.2 !! "1449" = Some {| total := Fin 1%Q; by_world := [("w", Fin 1%Q)] |}.
Proof. vm_compute. done. Qed.

(** ** The exploration rate *)

Lemma epsilon_at_S {num} `{!PyNum num} (ag : agent num) n :
  epsilon_at ag (S n) =
    py_max2 (min_epsilon ag) (epsilon_at ag n * decay_rate ag)%py.
Proof.
  unfold epsilon_at. simpl.
  by destruct (iter_decay_settings n ag) as (_ & _ & -> & -> & _).
Qed.

Lemma py_max2_Q (a b : Q) : ((a <= py_max2 a b) ∧ (b <= py_max2 a b))%Q
  ∧ (py_max2 a b = a ∨ py_max2 a b = b).
Proof.
  split; [split; apply Q_nle; [apply py_max2_l | apply py_max2_r]|].
  apply py_max2_cases.
Qed.

(** With a decay factor in (0,1] and a start that is neither negative nor
    below the floor, the rate stays so and does not grow. *)
Lemma epsilon_at_bounds (ag : agent Q) n :
  (min_epsilon ag <= epsilon ag)%Q → (0 <= epsilon ag)%Q →
  (0 < decay_rate ag)%Q → (decay_rate ag <= 1)%Q →
  (min_epsilon ag <= epsilon_at ag n)%Q ∧ (0 <= epsilon_at ag n)%Q
  ∧ (epsilon_at ag (S n) <= epsilon_at ag n)%Q.
Proof.
  intros Hmin Hpos Hd0 Hd1.
  assert (Hinv : (min_epsilon ag <= epsilon_at ag n)%Q ∧ (0 <= epsilon_at ag n)%Q).
  { induction n as [|n [IHmin IHpos]]; [done|]. rewrite epsilon_at_S.
    destruct (py_max2_Q (min_epsilon ag) (epsilon_at ag n * decay_rate ag)%py)
      as [[Hl Hr] _]. split; [done|].
    eapply Qle_trans; [|exact Hr]. simpl. by apply Qmult_le_0_compat, Qlt_le_weak. }
  destruct Hinv as [IHmin IHpos]. split; [done|]. split; [done|].
  rewrite epsilon_at_S.
  destruct (py_max2_Q (min_epsilon ag) (epsilon_at ag n * decay_rate ag)%py)
    as [_ [-> | ->]]; [done|]. simpl.
  rewrite <- (Qmult_1_r (epsilon_at ag n)) at 2.
  rewrite !(Qmult_comm (epsilon_at ag n)). by apply Qmult_le_compat_r.
Qed.

(** With a floor of 1/100 and a start of 1/200 the rate goes up after the
    first episode, for the decay factor 1/2. *)
Lemma epsilon_below_floor_increases :
  let ag := init "w" None (1 # 2) (9 # 10) (1 # 200) 3 (1 # 100) (1 # 2) in
  ((0 < decay_rate ag)%Q ∧ (decay_rate ag <= 1)%Q)
  ∧ ¬ (epsilon_at ag 1 <= epsilon_at ag 0)%Q.
Proof. simpl. split; [split; done|]. by vm_compute. Qed.

(** C3, amended. After any decay step the exploration rate is at least
    [min_epsilon], for every start, decay factor and minimum.  When the
    start is at least [min_epsilon] and not negative and the decay factor is
    in (0,1], the rates at the start of successive episodes never increase.
    These are the rates of the episode loop: after [n] episodes the agent's
    rate is the [n]-th of the sequence. *)
Theorem epsilon_floor_and_monotone (ag : agent Q) :
  (∀ n, (min_epsilon ag <= epsilon_at ag (S n))%Q) ∧
  ((min_epsilon ag <= epsilon ag)%Q → (0 <= epsilon ag)%Q →
   (0 < decay_rate ag)%Q → (decay_rate ag <= 1)%Q →
   ∀ n, (epsilon_at ag (S n) <= epsilon_at ag n)%Q) ∧
  (∀ W G (world : WorldInterface Q W) (source : RandomSource Q G)
     fuel n best (st st' : state Q W G) b,
     self st = ag → train_loop fuel n best st = (Ret b, st') →
     epsilon (self st') = epsilon_at ag n).
Proof.
  split; [|split].
  - intros n. rewrite epsilon_at_S.
    by destruct (py_max2_Q (min_epsilon ag) (epsilon_at ag n * decay_rate ag)%py)
      as [[Hl _] _].
  - intros Hmin Hpos Hd0 Hd1 n. by apply epsilon_at_bounds.
  - intros W G world source fuel n best st st' b <- Hrun.
    destruct (train_loop_inv _ _ _ _ _ _ Hrun) as (_ & _ & _ & _ & Hself & _).
    by rewrite Hself.
Qed.

Lemma epsilon_floor_and_monotone_witness :
  (∀ n, (min_epsilon agent0 <= epsilon_at agent0 (S n))%Q) ∧
  (∀ n, (epsilon_at agent0 (S n) <= epsilon_at agent0 n)%Q).
Proof.
  destruct (epsilon_floor_and_monotone agent0) as (Hfloor & Hmono & _).
  split; [exact Hfloor|]. apply Hmono; done.
Defined.

(** ** Results with missing fields *)

(** Whatever the server, a location without position makes the episode
    raise [ValueError] on its first pass: the default position is the
    empty list. *)
Lemma run_episode_missing_position {num W G : Type}
    `{!PyNum num, !WorldInterface num W, !RandomSource num G}
    (fuel : nat) (st : state num W G) r w1 loc w2 :
  srv_enter (server st) (world_id (self st)) = (Ret r, w1) →
  srv_location w1 = (Ret loc, w2) →
  r_position loc = None →
  (run_episode (S fuel) st).1 = Raise ValueError.
Proof.
  intros Henter Hloc Hpos. unfold run_episode.
  step.
  step_by ltac:(unfold enter_world, request; by rewrite Henter).
  step_by ltac:(unfold get_location, request; simpl; by rewrite Hloc).
  rewrite Hpos. cbn [default].
  step_by ltac:(unfold lift, observe; simpl; reflexivity).
  cbn [episode_loop]. step.
  by erewrite bind_raise.
Qed.

(** C9: the code at the failing inputs.  When the location lacks the
    position, [train] raises [ValueError] before any move is made: the empty
    default cannot be unpacked by [valid_directions].  When a move result
    lacks the position and the episode is not over, the transition is
    learned and the next pass of the loop raises in the same way.  A result
    that lacks only the reward and the completion flag is taken with reward 0
    and the episode goes on. *)
Theorem train_missing_position_raises :
  (∀ fuel moves,
     let run := train (S fuel) (start agent0 {| sc_location := no_position;
                                                sc_moves := moves |} [0%nat]) in
     run.1 = Raise ValueError ∧ trace run.2 = [EvEnter "w"; EvLocate no_position]) ∧
  (let run := train 5 (start agent0 {| sc_location := stub_result;
                                       sc_moves := [no_position; stub_result] |}
                         [0%nat]) in
   run.1 = Raise ValueError
   ∧ trace run.2 = [EvEnter "w"; EvLocate stub_result; EvMove "w" "S" no_position]
   ∧ Qtable (self run.2) !! (corner, "S") = Some (10 # 20)%Q) ∧
  (let run := train 5 (start (set_episodes agent0 1)
                         {| sc_location := stub_result;
                            sc_moves := [position_only; stub_result] |} [0%nat]) in
   run.1 = Ret (Fin (0 + 0 + 1)%Q)
   ∧ trace run.2 = [EvEnter "w"; EvLocate stub_result; EvMove "w" "S" position_only;
                    EvMove "w" "S" stub_result; EvStore "w" (Fin (0 + 0 + 1)%Q)]).
Proof.
  split; [|split].
  - intros fuel moves. by vm_compute.
  - by vm_compute.
  - by vm_compute.
Qed.

(** * Further properties of the code *)

(** ** The persisted points *)

Section Points.
Context {num : Type} `{!PyNum num}.
Implicit Types (data : gmap string (team num)) (d : list (string * ext num)).

Lemma alist_get_set_ne {V} (k k' : string) (v : V) (d : list (string * V)) :
  k' ≠ k → alist_get k' (alist_set k v d) = alist_get k' d.
Proof.
  intros Hne. induction d as [|[k0 v0] d IH]; simpl.
  - by rewrite decide_False.
  - destruct (decide (k0 = k)) as [->|Hk]; simpl.
    + by rewrite !decide_False.
    + by rewrite IH.
Qed.

Lemma alist_set_set {V} (k : string) (v1 v2 : V) (d : list (string * V)) :
  alist_set k v2 (alist_set k v1 d) = alist_set k v2 d.
Proof.
  induction d as [|[k0 v0] d IH]; simpl.
  - by rewrite decide_True.
  - destruct (decide (k0 = k)) as [->|Hk]; simpl.
    + by rewrite decide_True.
    + by rewrite decide_False, IH.
Qed.

(** The worlds of a record after an assignment: as before when the world
    was there, with the world added at the end when it was not. *)
Lemma alist_set_keys {V} (k : string) (v : V) (d : list (string * V)) :
  (alist_set k v d).*1 = if decide (k ∈ d.*1) then d.*1 else d.*1 ++ [k].
Proof.
  induction d as [|[k0 v0] d IH]; [done|].
  simpl alist_set. destruct (decide (k0 = k)) as [->|Hk]; rewrite !fmap_cons.
  - cbn [fst]. rewrite decide_True; [done | by left].
  - cbn [fst]. rewrite IH. destruct (decide (k ∈ d.*1)) as [Hin|Hin].
    + rewrite decide_True; [done | by right].
    + rewrite decide_False; [done|]. by intros [->|?]%elem_of_cons.
Qed.

(** X1. What [store_points] stores, [load_points] gives back: the world
    just stored holds the points, every other world of the team holds what
    it held, and the records of the other teams are untouched. *)
Theorem store_then_load (team_id : string) data (world : string) (points : ext num) :
  let data' := store_points team_id data world points in
  alist_get world (by_world (load_points team_id data')) = Some points ∧
  (∀ world', world' ≠ world →
     alist_get world' (by_world (load_points team_id data'))
     = alist_get world' (by_world (load_points team_id data))) ∧
  (∀ team_id', team_id' ≠ team_id → data' !! team_id' = data !! team_id').
Proof.
  simpl. unfold load_points, store_points. rewrite lookup_insert_eq. simpl.
  split; [apply alist_get_set|]. split.
  - intros world' Hne. by apply alist_get_set_ne.
  - intros team_id' Hne. by apply lookup_insert_ne.
Qed.

(** X2. Storing again for the same world replaces the points, it does not
    add to them: two calls leave the file that the second call alone would
    leave.  The worlds of the team keep their order and stay distinct; a
    world not yet there is added last. *)
Theorem store_points_overwrites (team_id : string) data (world : string)
    (p1 p2 : ext num) :
  store_points team_id (store_points team_id data world p1) world p2
    = store_points team_id data world p2 ∧
  (let worlds := (by_world (load_points team_id data)).*1 in
   let worlds' := (by_world (load_points team_id
                               (store_points team_id data world p1))).*1 in
   worlds' = (if decide (world ∈ worlds) then worlds else worlds ++ [world])
   ∧ (NoDup worlds → NoDup worlds')).
Proof.
  split.
  - unfold store_points. rewrite lookup_insert_eq. simpl.
    by rewrite alist_set_set, insert_insert_eq.
  - simpl. unfold load_points, store_points. rewrite lookup_insert_eq. simpl.
    rewrite alist_set_keys. split; [done|]. intros Hnd.
    destruct (decide _) as [Hin|Hin]; [done|].
    apply NoDup_app. split; [done|]. split.
    + intros x Hx [->|[]%elem_of_nil]%elem_of_cons. done.
    + apply NoDup_singleton.
Qed.



End Points.

Lemma store_then_load_witness :
  let data := store_points "1449" (∅ : gmap string (team Q)) "v" (Fin 2%Q) in
  let data' := store_points "1449" data "w" (Fin 1%Q) in
  alist_get "w" (by_world (load_points "1449" data')) = Some (Fin 1%Q) ∧
  alist_get "v" (by_world (load_points "1449" data')) = Some (Fin 2%Q) ∧
  data' !! "7" = None.
Proof.
  destruct (store_then_load "1449"
              (store_points "1449" (∅ : gmap string (team Q)) "v" (Fin 2%Q))
              "w" (Fin 1%Q)) as (H1 & H2 & H3).
  split; [exact H1|]. split.
  - rewrite (H2 "v"); [reflexivity | discriminate].
  - rewrite (H3 "7"); [reflexivity | discriminate].
Defined.

Lemma store_points_overwrites_witness :
  let data := store_points "1449" (∅ : gmap string (team Q)) "v" (Fin 2%Q) in
  store_points "1449" (store_points "1449" data "w" (Fin 1%Q)) "w" (Fin 3%Q)
    = store_points "1449" data "w" (Fin 3%Q) ∧
  NoDup (by_world (load_points "1449" (store_points "1449" data "w" (Fin 1%Q)))).*1.
Proof.
  destruct (store_points_overwrites "1449"
              (store_points "1449" (∅ : gmap string (team Q)) "v" (Fin 2%Q))
              "w" (Fin 1%Q) (Fin 3%Q)) as (H1 & _ & H2).
  split; [exact H1|]. apply H2. apply (bool_decide_unpack _). by vm_compute.
Defined.

(** ** Legal directions: errors and the fallback *)

Section DirectionsMore.
Context {num : Type} `{!PyNum num}.
Implicit Types (ag : agent num).

(** [valid_directions] returns on pairs of integers only. *)
Lemma valid_directions_ret_pair ag position size dirs :
  valid_directions ag position size = Ret dirs → int_pair position = true.
Proof.
  intros Hd. unfold valid_directions in Hd.
  destruct position as [| |s|[|x [|y []]]|[|x [|y []]]]; try done;
    try (destruct s as [|a [|b []]]; done);
    destruct x; try done; destruct y; try done.
Qed.


(** X5. On a grid of size at least 2 the fallback is never taken: at every
    pair of integers, on the grid or off it, the list returned is not empty,
    has no repetition, holds only N, S, W and E, and is the same whatever
    directions the agent was built with. *)
Theorem valid_directions_cardinal ag position x y size :
  position = PyList [PyInt x; PyInt y] ∨ position = PyTuple [PyInt x; PyInt y] →
  2 ≤ size →
  ∃ dirs, valid_directions ag position size = Ret dirs ∧
    dirs ≠ [] ∧ NoDup dirs ∧ dirs ⊆ ["N"; "S"; "W"; "E"] ∧
    ∀ ag' : agent num, valid_directions ag' position size = Ret dirs.
Proof.
  intros Hpos Hsize. rewrite (valid_directions_pair _ _ x y size Hpos).
  eexists. split; [done|].
  assert (Hsame : ∀ ag' : agent num,
    valid_directions ag' position size =
      Ret (py_or ((if 0 <? x then ["N"] else []) ++ (if x <? size - 1 then ["S"] else [])
                  ++ (if 0 <? y then ["W"] else []) ++ (if y <? size - 1 then ["E"] else []))
                 (directions ag'))).
  { intros ag'. by apply valid_directions_pair. }
  destruct (Z.ltb_spec 0 x), (Z.ltb_spec x (size - 1)),
    (Z.ltb_spec 0 y), (Z.ltb_spec y (size - 1)); simpl in *; try lia;
    (split; [done|]); (split; [apply (bool_decide_unpack _); by vm_compute|]);
    (split; [intros d Hd; rewrite !elem_of_cons in *; tauto | done]).
Qed.

End DirectionsMore.


Lemma valid_directions_cardinal_witness :
  ∃ dirs, valid_directions agent0 (PyList [PyInt (-3); PyInt 50]) 40 = Ret dirs ∧
    dirs ≠ [] ∧ NoDup dirs ∧ dirs ⊆ ["N"; "S"; "W"; "E"] ∧
    ∀ ag' : agent Q, valid_directions ag' (PyList [PyInt (-3); PyInt 50]) 40 = Ret dirs.
Proof.
  apply (valid_directions_cardinal agent0 _ (-3) 50 40); [by left | lia].
Defined.

(** ** State keys: composition *)

(** X14. [_state_key] is idempotent: a key is its own key.  Two
    observations get the same key exactly when they have the same items, a
    scalar counting as its own single item: so an integer or a string shares
    its key with the one-item tuple or list that holds it. *)
Theorem state_key_idempotent :
  (∀ v, _state_key (_state_key v) = _state_key v) ∧
  (∀ v w, _state_key v = _state_key w ↔ key_items v = key_items w) ∧
  (∀ z, _state_key (PyInt z) = _state_key (PyTuple [PyInt z])) ∧
  (∀ s, _state_key (PyStr s) = _state_key (PyList [PyStr s])).
Proof.
  split; [by intros []|]. split; [|done].
  intros v w. split; destruct v, w; simpl; congruence.
Qed.

(** ** Choosing a direction: the two branches *)

Section ChooseMore.
Context {num G : Type} `{!PyNum num, !PyNumLaws num, !RandomSource num G}.
Implicit Types (ag : agent num) (g : G).

(** X6. When the draw of [random()] is not below [epsilon], the direction
    chosen is a best one: it is a candidate whose table entry equals the
    maximum of the candidates' entries, which no candidate's entry
    exceeds. *)
Theorem choose_direction_greedy ag state_key valid_dirs g u g1 :
  rnd_random g = (u, g1) → nltb u (epsilon ag) = false →
  hashable state_key = true → directions ag ≠ [] →
  ∃ d g' m, choose_direction ag state_key valid_dirs g = (Ret d, g') ∧
    d ∈ py_or (default [] valid_dirs) (directions ag) ∧
    neqb (entry ag (state_key, d)) m = true ∧
    (∃ d0, d0 ∈ py_or (default [] valid_dirs) (directions ag)
           ∧ m = entry ag (state_key, d0)) ∧
    (∀ d', d' ∈ py_or (default [] valid_dirs) (directions ag) →
           (entry ag (state_key, d') <= m)%py).
Proof.
  intros Hrnd Hu Hk Hd. unfold choose_direction.
  set (dirs := py_or (default [] valid_dirs) (directions ag)).
  assert (Hne : dirs ≠ []).
  { unfold dirs. by destruct (default [] valid_dirs). }
  rewrite Hrnd, Hu, (q_values_hashable _ _ _ Hk). simpl.
  destruct (py_max_spec ((λ d, entry ag (state_key, d)) <$> dirs))
    as (m & Hm & Hin & Hub); [by destruct dirs|].
  rewrite Hm. simpl.
  apply list_elem_of_fmap in Hin as (d0 & Hm0 & Hd0).
  destruct (choice_elem (best_of dirs ((λ d, entry ag (state_key, d)) <$> dirs) m) g1)
    as (d & g' & Hc & Hbest).
  { intros Hnil.
    assert (Hb : d0 ∈ best_of dirs ((λ d, entry ag (state_key, d)) <$> dirs) m).
    { apply (best_of_elem (λ d, entry ag (state_key, d))).
      split; [done|]. rewrite <- Hm0. apply neqb_refl. }
    rewrite Hnil in Hb. by apply elem_of_nil in Hb. }
  apply (best_of_elem (λ d, entry ag (state_key, d))) in Hbest as [Hdin Heq].
  exists d, g', m. split; [done|]. split; [done|]. split; [done|]. split; [eauto|].
  intros d' Hd'. apply Hub, list_elem_of_fmap. eauto.
Qed.

(** X7. When the draw is below [epsilon] the table is not read: a candidate
    is returned whatever the state key is, hashable or not.  When the draw is
    not below [epsilon] and the state key is not hashable, the table lookup
    raises [TypeError], after the one draw. *)
Theorem choose_direction_explore ag state_key valid_dirs g u g1 :
  rnd_random g = (u, g1) → directions ag ≠ [] →
  (nltb u (epsilon ag) = true →
   ∃ d g', choose_direction ag state_key valid_dirs g = (Ret d, g') ∧
     d ∈ py_or (default [] valid_dirs) (directions ag)) ∧
  (nltb u (epsilon ag) = false → hashable state_key = false →
   choose_direction ag state_key valid_dirs g = (Raise TypeError, g1)).
Proof.
  intros Hrnd Hd. unfold choose_direction.
  set (dirs := py_or (default [] valid_dirs) (directions ag)).
  assert (Hne : dirs ≠ []).
  { unfold dirs. by destruct (default [] valid_dirs). }
  rewrite Hrnd. split.
  - intros ->. by apply choice_elem.
  - intros -> Hk. destruct dirs as [|d0 dirs]; [done|].
    unfold q_values, dict_get. simpl. by rewrite Hk.
Qed.

End ChooseMore.

Lemma choose_direction_greedy_witness :
  ∃ d g' m, choose_direction agent0 corner None {| next_draws := [100%nat] |}
              = (Ret d, g') ∧
    d ∈ py_or (default [] None) (directions agent0) ∧
    neqb (entry agent0 (corner, d)) m = true ∧
    (∃ d0, d0 ∈ py_or (default [] None) (directions agent0)
           ∧ m = entry agent0 (corner, d0)) ∧
    (∀ d', d' ∈ py_or (default [] None) (directions agent0) →
           (entry agent0 (corner, d') <= m)%py).
Proof.
  apply (choose_direction_greedy agent0 corner None {| next_draws := [100%nat] |}
           (100 # 100)%Q {| next_draws := [100%nat] |});
    [reflexivity | reflexivity | reflexivity | discriminate].
Defined.

Lemma choose_direction_explore_witness :
  (∃ d g', choose_direction agent0 (PyList []) None {| next_draws := [0%nat] |}
             = (Ret d, g') ∧ d ∈ directions agent0) ∧
  choose_direction agent0 (PyList []) None {| next_draws := [100%nat] |}
    = (Raise TypeError, {| next_draws := [100%nat] |}).
Proof.
  split.
  - apply (choose_direction_explore agent0 (PyList []) None {| next_draws := [0%nat] |}
             (0 # 100)%Q {| next_draws := [0%nat] |}); [reflexivity | discriminate | reflexivity].
  - apply (choose_direction_explore agent0 (PyList []) None {| next_draws := [100%nat] |}
             (100 # 100)%Q {| next_draws := [100%nat] |});
      [reflexivity | discriminate | reflexivity | reflexivity].
Defined.

(** ** The update: errors and bounds *)

Section LearnMore.
Context {num : Type} `{!PyNum num}.
Implicit Types (ag : agent num) (state_key next_key : pyval) (action : string).

(** X8. [learn] returns exactly when the keys it looks up are hashable:
    the state key always, the next key when the transition is not terminal.
    Otherwise it raises [TypeError], and no agent with a changed table comes
    out of the call. *)
Theorem learn_returns_iff ag state_key action reward next_key done :
  directions ag ≠ [] →
  ((∃ ag', learn ag state_key action reward next_key done = Ret ag')
   ↔ hashable state_key = true ∧ (done = true ∨ hashable next_key = true)) ∧
  (hashable state_key = false ∨ (done = false ∧ hashable next_key = false) →
   learn ag state_key action reward next_key done = Raise TypeError).
Proof.
  intros Hd.
  assert (Hraise : hashable state_key = false ∨ (done = false ∧ hashable next_key = false) →
                   learn ag state_key action reward next_key done = Raise TypeError).
  { unfold learn, dict_get. simpl. intros [Hk | [-> Hn]].
    - by rewrite Hk.
    - destruct (hashable state_key); [|done]. simpl.
      destruct (directions ag) as [|d0 dirs]; [done|].
      unfold q_values, dict_get. simpl. by rewrite Hn. }
  split; [|done]. split.
  - intros [ag' Hl].
    destruct (hashable state_key) eqn:Hk; [|by rewrite Hraise in Hl; auto].
    split; [done|]. destruct done; [by left|].
    destruct (hashable next_key) eqn:Hn; [by right|]. by rewrite Hraise in Hl; auto.
  - intros [Hk [-> | Hn]].
    + eexists. by apply learn_done.
    + destruct done; [eexists; by apply learn_done|].
      unfold learn. rewrite (q_values_hashable _ _ _ Hn).
      unfold dict_get, dict_set. simpl. rewrite Hk. simpl.
      destruct (directions ag) as [|d0 dirs]; [done|]. simpl. eauto.
Qed.

End LearnMore.

Lemma learn_returns_iff_witness :
  learn agent0 (PyTuple [PyStr "w"; PyList [PyInt 0; PyInt 0]]) "N" 1%Q corner true
    = Raise TypeError
  ∧ learn agent0 corner "N" 1%Q (PyList []) false = Raise TypeError.
Proof.
  split.
  - apply (learn_returns_iff agent0 (PyTuple [PyStr "w"; PyList [PyInt 0; PyInt 0]])
             "N" 1%Q corner true); [discriminate | by left].
  - apply (learn_returns_iff agent0 corner "N" 1%Q (PyList []) false);
      [discriminate | by right].
Defined.

(** ** Training, whatever its outcome *)

Section AnyOutcome.
Context {num W G : Type}.
Implicit Types (st : state num W G) (ag : agent num).

(** A sequence either runs its first statement to a value and goes on, or
    stops where that statement stops. *)
Lemma bind_inv {A B} (m : prog num W G A) (k : A → prog num W G B) st o st' :
  (m ≫= k) st = (o, st') →
  (∃ a st1, m st = (Ret a, st1) ∧ k a st1 = (o, st')) ∨
  (failed o ∧ ((∃ e, m st = (Raise e, st') ∧ o = Raise e)
               ∨ (m st = (Diverge, st') ∧ o = Diverge))).
Proof.
  unfold mbind, prog_bind. destruct (m st) as [[a|e|] st1].
  - left. eauto.
  - intros [= <- <-]. right. split; [done|]. left. eauto.
  - intros [= <- <-]. right. split; [done|]. by right.
Qed.

End AnyOutcome.

Section Learns.
Context {num W G : Type} `{!PyNum num, !WorldInterface num W, !RandomSource num G}.
Implicit Types (st : state num W G) (ag : agent num).

Lemma request_inv f ev st (o : outcome (result num)) st' :
  request f ev st = (o, st') →
  self st' = self st ∧ same_files st st' ∧
  trace st' = trace st ++ match o with Ret r => [ev r] | _ => [] end.
Proof.
  unfold request. destruct (f (server st)) as [o' w]. intros [= -> <-]. simpl.
  split; [done|]. split; [done|]. destruct o; by rewrite ?app_nil_r.
Qed.

Lemma choice_ret_elem {A} (seq : list A) (g g' : G) x :
  choice seq g = (Ret x, g') → x ∈ seq.
Proof.
  destruct seq as [|a seq]; [done|]. intros Hc.
  destruct (choice_elem (a :: seq) g) as (x0 & g0 & Hc0 & Hin); [done|].
  rewrite Hc in Hc0. by injection Hc0 as -> _.
Qed.

Lemma best_of_subset (dirs : list string) (q_vals : list num) max_q d :
  d ∈ best_of dirs q_vals max_q → d ∈ dirs.
Proof.
  unfold best_of. intros ([d' q] & -> & Hin)%list_elem_of_fmap.
  apply list_elem_of_In, filter_In in Hin as [Hin _].
  apply list_elem_of_In in Hin. simpl.
  revert q_vals Hin. induction dirs as [|a dirs IH]; intros [|b q_vals]; simpl;
    try by intros ?%elem_of_nil.
  intros [[= -> ->]|Hin]%elem_of_cons; [by left | right; eauto].
Qed.

(** A direction that [choose_direction] returns is one of its candidates. *)
Lemma choose_direction_ret_elem ag state_key valid_dirs (g g' : G) d :
  choose_direction ag state_key valid_dirs g = (Ret d, g') →
  d ∈ py_or (default [] valid_dirs) (directions ag).
Proof.
  unfold choose_direction. destruct (rnd_random g) as [u g1].
  destruct (nltb u (epsilon ag)); [apply choice_ret_elem|].
  destruct (q_values _ _ _) as [q_vals| |]; simpl; [|done..].
  destruct (py_max q_vals) as [max_q| |]; simpl; [|done..].
  intros Hc%choice_ret_elem. by eapply best_of_subset.
Qed.

(** The directions [valid_directions] returns are cardinal or the agent's. *)
Lemma valid_directions_ret_subset ag position size dirs :
  valid_directions ag position size = Ret dirs →
  dirs ⊆ ["N"; "S"; "W"; "E"] ++ directions ag.
Proof.
  intros Hv.
  assert (Hp : int_pair position = true) by (by eapply valid_directions_ret_pair).
  destruct position as [| | |[|[] [|[] []]]|[|[] [|[] []]]]; try done;
    rewrite (valid_directions_pair _ _ z z0 size) in Hv; eauto;
    injection Hv as <-;
    destruct (0 <? z), (z <? size - 1), (0 <? z0), (z0 <? size - 1); simpl;
    intros d Hd; rewrite ?elem_of_cons, ?elem_of_nil in *; tauto.
Qed.

Lemma observe_shape (res : result num) position key :
  observe res position = Ret key → observed_key key = true.
Proof.
  unfold observe. destruct (py_tuple position) as [t| |] eqn:Ht; simpl; [|done..].
  intros [= <-]. destruct position; simpl in Ht; try done; by injection Ht as <-.
Qed.

Lemma from_move_weaken evs1 evs evs2 dirs (t : transition (num:=num)) :
  from_move evs dirs t → from_move (evs1 ++ evs ++ evs2) dirs t.
Proof.
  intros (Hs & Hn & Ha & world & res & Hin & Hr & Hd).
  repeat split; try done. exists world, res. split; [|done].
  rewrite !elem_of_app. auto.
Qed.

Lemma learn_directions ag state_key action reward next_key done ag' :
  learn ag state_key action reward next_key done = Ret ag' →
  directions ag' = directions ag.
Proof. by intros [v ->]%learn_inv. Qed.

(** Whatever way the loop of an episode ends, the agent it leaves is the
    agent of as many calls of [learn] as it got through, on transitions of
    the moves it made; it makes moves only, and leaves the points alone. *)
Lemma episode_loop_learns fuel position state_key total st o st' :
  episode_loop fuel position state_key total st = (o, st') →
  observed_key state_key = true →
  ∃ evs ts, trace st' = trace st ++ evs ∧ Forall (λ ev, is_store ev = false) evs ∧
    learn_all (self st) ts = Ret (self st') ∧
    Forall (from_move evs (directions (self st))) ts ∧ same_files st st'.
Proof.
  revert position state_key total st o st'.
  induction fuel as [|fuel IH]; intros position state_key total st o st' Hrun Hkey.
  { injection Hrun as <- <-. exists [], []. by rewrite app_nil_r. }
  assert (Hnone : ∀ st1 : state num W G,
            self st1 = self st → same_files st st1 → ∀ evs,
            trace st1 = trace st ++ evs → Forall (λ ev, is_store ev = false) evs →
            ∃ evs ts, trace st1 = trace st ++ evs ∧
              Forall (λ ev, is_store ev = false) evs ∧
              learn_all (self st) ts = Ret (self st1) ∧
              Forall (from_move evs (directions (self st))) ts ∧ same_files st st1).
  { intros st1 Hself Hfiles evs Htr Hevs. exists evs, []. simpl. by rewrite Hself. }
  cbn [episode_loop] in Hrun.
  apply bind_inv in Hrun as [(ag & st1 & [= <- <-] & Hrun) | [_ [(e & [=] & _) | [[=] _]]]].
  apply bind_inv in Hrun as [(valid & st1 & [Hvalid ->]%lift_ret_inv & Hrun) | [_ Hfail]].
  2:{ unfold lift in Hfail. destruct Hfail as [(e & [= _ <-] & _) | [[= _ <-] _]];
        apply (Hnone st eq_refl (conj eq_refl eq_refl) []); by rewrite ?app_nil_r. }
  apply bind_inv in Hrun as [(move & st1 & Hmove & Hrun) | [_ Hfail]].
  2:{ unfold with_rng in Hfail. destruct (choose_direction _ _ _ _) as [o' g'].
      destruct Hfail as [(e & [= _ <-] & _) | [[= _ <-] _]];
        apply (Hnone _ eq_refl (conj eq_refl eq_refl) []); simpl; by rewrite ?app_nil_r. }
  unfold with_rng in Hmove.
  destruct (choose_direction _ _ _ _) as [o' g'] eqn:Hchoose.
  injection Hmove as -> <-.
  apply choose_direction_ret_elem in Hchoose. simpl in Hchoose.
  apply bind_inv in Hrun as [(res & st2 & Hres & Hrun) | [_ Hfail]].
  2:{ unfold make_move in Hfail.
      destruct Hfail as [(e & [Hself [Hfiles Htr]]%request_inv & _)
                        | [[Hself [Hfiles Htr]]%request_inv _]];
        apply (Hnone _ Hself Hfiles []); simpl in *; by rewrite ?app_nil_r in *. }
  unfold make_move in Hres. apply request_inv in Hres as [Hself [Hfiles Htr]].
  simpl in Hself, Hfiles, Htr.
  assert (Hmv : Forall (λ ev : event num, is_store ev = false)
                  [EvMove (world_id (self st)) move res]) by (by constructor).
  apply bind_inv in Hrun as [(next_key & st3 & [Hobs ->]%lift_ret_inv & Hrun) | [_ Hfail]].
  2:{ unfold lift in Hfail. destruct Hfail as [(e & [= _ <-] & _) | [[= _ <-] _]];
        by apply (Hnone _ Hself Hfiles [EvMove (world_id (self st)) move res]). }
  apply bind_inv in Hrun as [(ag' & st3 & [Hlearn ->]%lift_ret_inv & Hrun) | [_ Hfail]].
  2:{ unfold lift in Hfail. destruct Hfail as [(e & [= _ <-] & _) | [[= _ <-] _]];
        by apply (Hnone _ Hself Hfiles [EvMove (world_id (self st)) move res]). }
  apply bind_inv in Hrun as [([] & st3 & [= <-] & Hrun) | [_ [(e & [=] & _) | [[=] _]]]].
  set (t := (state_key, move, default nzero (r_reward res), next_key,
             default false (r_completed res)) : transition (num:=num)).
  assert (Ht : from_move [EvMove (world_id (self st)) move res]
                 (directions (self st)) t).
  { split; [done|]. split; [by eapply observe_shape|]. split.
    - simpl. destruct valid as [|v valid]; simpl in Hchoose.
      + rewrite !elem_of_cons. tauto.
      + by apply (valid_directions_ret_subset _ _ _ _ Hvalid).
    - exists (world_id (self st)), res. split; [by left | done]. }
  assert (Hcons : ∀ ts, learn_all (self st) (t :: ts) = learn_all ag' ts).
  { intros ts. cbn [learn_all]. unfold learn_one, t. simpl. by rewrite Hlearn. }
  destruct (default false (r_completed res)) eqn:Hdone.
  - injection Hrun as <- <-. exists [EvMove (world_id (self st)) move res], [t].
    split; [exact Htr|]. split; [done|]. split; [by rewrite Hcons|].
    split; [by constructor | exact Hfiles].
  - apply IH in Hrun as (evs & ts & Htr' & Hevs & Hall & Hts & [Ht1 Hd1]);
      [|by eapply observe_shape].
    simpl in Htr', Hall, Hts, Ht1, Hd1.
    exists (EvMove (world_id (self st)) move res :: evs), (t :: ts).
    split; [by rewrite Htr', Htr, <- app_assoc|]. split; [by constructor|]. split.
    + by rewrite Hcons.
    + split.
      * constructor.
        -- apply (from_move_weaken [] _ evs) in Ht. by rewrite <- app_comm_cons in Ht.
        -- rewrite (learn_directions _ _ _ _ _ _ _ Hlearn) in Hts.
           eapply Forall_impl; [exact Hts|]. intros t' Ht'.
           by apply (from_move_weaken [EvMove (world_id (self st)) move res] _ []) in Ht';
             rewrite app_nil_r in Ht'.
      * destruct Hfiles as [Hf1 Hf2]. simpl in Hf1, Hf2. split; congruence.
Qed.

End Learns.

Section LearnsTrain.
Context {num W G : Type} `{!PyNum num, !WorldInterface num W, !RandomSource num G}.
Implicit Types (st : state num W G) (ag : agent num).

Lemma from_move_app_l evs evs' dirs (t : transition (num:=num)) :
  from_move evs dirs t → from_move (evs' ++ evs) dirs t.
Proof.
  intros Ht. apply (from_move_weaken evs' _ []) in Ht. by rewrite app_nil_r in Ht.
Qed.

Lemma from_move_app_r evs evs' dirs (t : transition (num:=num)) :
  from_move evs dirs t → from_move (evs ++ evs') dirs t.
Proof. intros Ht. by apply (from_move_weaken [] _ evs') in Ht. Qed.

Lemma run_episode_learns fuel st (o : outcome num) st' :
  run_episode fuel st = (o, st') →
  ∃ evs ts, trace st' = trace st ++ evs ∧ Forall (λ ev, is_store ev = false) evs ∧
    learn_all (self st) ts = Ret (self st') ∧
    Forall (from_move evs (directions (self st))) ts ∧ same_files st st'.
Proof.
  unfold run_episode. intros Hrun.
  assert (Hnone : ∀ st1 : state num W G,
            self st1 = self st → same_files st st1 → ∀ evs,
            trace st1 = trace st ++ evs → Forall (λ ev, is_store ev = false) evs →
            ∃ evs ts, trace st1 = trace st ++ evs ∧
              Forall (λ ev, is_store ev = false) evs ∧
              learn_all (self st) ts = Ret (self st1) ∧
              Forall (from_move evs (directions (self st))) ts ∧ same_files st st1).
  { intros st1 Hself Hfiles evs Htr Hevs. exists evs, []. simpl. by rewrite Hself. }
  apply bind_inv in Hrun as [(ag & st0 & [= <- <-] & Hrun) | [_ [(e & [=] & _) | [[=] _]]]].
  apply bind_inv in Hrun as [(r & st1 & Henter & Hrun) | [_ Hfail]].
  2:{ unfold enter_world in Hfail.
      destruct Hfail as [(e & [Hself [Hfiles Htr]]%request_inv & _)
                        | [[Hself [Hfiles Htr]]%request_inv _]];
        apply (Hnone _ Hself Hfiles []); simpl in *; by rewrite ?app_nil_r in *. }
  unfold enter_world in Henter. apply request_inv in Henter as [Hself1 [[Hf1 Hd1] Htr1]].
  apply bind_inv in Hrun as [(loc & st2 & Hloc & Hrun) | [_ Hfail]].
  2:{ unfold get_location in Hfail.
      destruct Hfail as [(e & [Hself [[Hf Hd] Htr]]%request_inv & _)
                        | [[Hself [[Hf Hd] Htr]]%request_inv _]];
        apply (Hnone _ (eq_trans Hself Hself1)
                 (conj (eq_trans Hf Hf1) (eq_trans Hd Hd1))
                 [EvEnter (world_id (self st))]);
        simpl in *; rewrite ?app_nil_r in *; try congruence; by constructor. }
  unfold get_location in Hloc. apply request_inv in Hloc as [Hself2 [[Hf2 Hd2] Htr2]].
  assert (Hevs2 : Forall (λ ev : event num, is_store ev = false)
                    [EvEnter (world_id (self st)); EvLocate loc])
    by (by repeat constructor).
  assert (Htr12 : trace st2 = trace st ++ [EvEnter (world_id (self st)); EvLocate loc]).
  { rewrite Htr2, Htr1. by rewrite <- app_assoc. }
  apply bind_inv in Hrun as [(key & st3 & [Hobs ->]%lift_ret_inv & Hrun) | [_ Hfail]].
  2:{ unfold lift in Hfail. destruct Hfail as [(e & [= _ <-] & _) | [[= _ <-] _]];
        apply (Hnone _ (eq_trans Hself2 Hself1)
                 (conj (eq_trans Hf2 Hf1) (eq_trans Hd2 Hd1)) _ Htr12 Hevs2). }
  apply episode_loop_learns in Hrun as (evs & ts & Htr & Hevs & Hall & Hts & [Hf3 Hd3]);
    [|by eapply observe_shape].
  rewrite Hself2, Hself1 in Hall, Hts.
  exists ([EvEnter (world_id (self st)); EvLocate loc] ++ evs), ts.
  split; [by rewrite Htr, Htr12, <- app_assoc|].
  split; [by apply Forall_app|]. split; [done|]. split.
  - eapply Forall_impl; [exact Hts|]. intros t. apply from_move_app_l.
  - split; congruence.
Qed.

(** [learn] does not look at [epsilon]. *)
Lemma learn_set_epsilon ag eps state_key action reward next_key done :
  learn (set_epsilon ag eps) state_key action reward next_key done
  = (ag' ← learn ag state_key action reward next_key done; Ret (set_epsilon ag' eps)).
Proof.
  unfold learn, q_values. simpl.
  destruct (dict_get _ _ _) as [q_val| |]; simpl; [|done..].
  destruct done; simpl.
  - by destruct (dict_set _ _ _).
  - destruct (mapM _ _) as [vals| |]; simpl; [|done..].
    destruct (py_max vals) as [m| |]; simpl; [|done..].
    by destruct (dict_set _ _ _).
Qed.

Lemma learn_all_set_epsilon ts ag eps ag2 :
  learn_all (set_epsilon ag eps) ts = Ret ag2 →
  ∃ ag1, learn_all ag ts = Ret ag1 ∧ ag2 = set_epsilon ag1 eps.
Proof.
  revert ag. induction ts as [|t ts IH]; intros ag; simpl.
  - intros [= <-]. eauto.
  - unfold learn_one. rewrite learn_set_epsilon.
    destruct (learn ag _ _ _ _ _) as [ag'| |]; simpl; [|done..]. apply IH.
Qed.

Lemma learn_all_app ts1 ts2 ag ag1 :
  learn_all ag ts1 = Ret ag1 → learn_all ag (ts1 ++ ts2) = learn_all ag1 ts2.
Proof.
  revert ag. induction ts1 as [|t ts1 IH]; intros ag; simpl.
  - by intros [= <-].
  - destruct (learn_one ag t) as [ag'| |]; simpl; [|done..]. apply IH.
Qed.

Lemma learn_all_directions ts ag ag' :
  learn_all ag ts = Ret ag' → directions ag' = directions ag.
Proof.
  revert ag. induction ts as [|t ts IH]; intros ag; simpl.
  - by intros [= <-].
  - destruct (learn_one ag t) as [ag1| |] eqn:Ht; simpl; [|done..].
    intros Hts. rewrite (IH _ Hts). unfold learn_one in Ht.
    by eapply learn_directions.
Qed.

Lemma set_epsilon_twice ag e1 e2 : set_epsilon (set_epsilon ag e1) e2 = set_epsilon ag e2.
Proof. done. Qed.

Lemma set_epsilon_same ag : set_epsilon ag (epsilon ag) = ag.
Proof. by destruct ag. Qed.

Lemma train_loop_learns fuel n best st (o : outcome (ext num)) st' :
  train_loop fuel n best st = (o, st') →
  ∃ evs ts ag1, trace st' = trace st ++ evs ∧ Forall (λ ev, is_store ev = false) evs ∧
    learn_all (self st) ts = Ret ag1 ∧ self st' = set_epsilon ag1 (epsilon (self st')) ∧
    Forall (from_move evs (directions (self st))) ts ∧ same_files st st'.
Proof.
  revert best st o st'. induction n as [|n IH]; intros best st o st'; cbn [train_loop].
  - intros [= <- <-]. exists [], [], (self st). rewrite app_nil_r, set_epsilon_same.
    by repeat split.
  - intros Hrun.
    apply bind_inv in Hrun as [(total & st1 & Hep & Hrun) | [_ Hfail]].
    2:{ destruct Hfail as [(e & Hep & _) | [Hep _]];
          apply run_episode_learns in Hep as (evs & ts & Htr & Hevs & Hall & Hts & Hf);
          exists evs, ts, (self st'); by rewrite set_epsilon_same. }
    apply run_episode_learns in Hep as (evs1 & ts1 & Htr1 & Hevs1 & Hall1 & Hts1 & [Hf1 Hd1]).
    apply bind_inv in Hrun as [(ag & st2 & [= <- <-] & Hrun) | [_ [(e & [=] & _) | [[=] _]]]].
    apply bind_inv in Hrun as [([] & st2 & [= <-] & Hrun) | [_ [(e & [=] & _) | [[=] _]]]].
    apply IH in Hrun as (evs2 & ts2 & ag2 & Htr2 & Hevs2 & Hall2 & Hself & Hts2 & [Hf2 Hd2]).
    simpl in Htr2, Hall2, Hts2, Hf2, Hd2.
    apply learn_all_set_epsilon in Hall2 as (ag3 & Hall3 & ->).
    exists (evs1 ++ evs2), (ts1 ++ ts2), ag3.
    split; [by rewrite Htr2, Htr1, <- app_assoc|].
    split; [by apply Forall_app|].
    split; [by rewrite (learn_all_app _ _ _ _ Hall1)|].
    split; [by rewrite Hself at 1|]. split.
    + apply Forall_app. split.
      * eapply Forall_impl; [exact Hts1|]. intros t. apply from_move_app_r.
      * rewrite (learn_all_directions _ _ _ Hall1) in Hts2.
        eapply Forall_impl; [exact Hts2|]. intros t. apply from_move_app_l.
    + split; congruence.
Qed.

(** The agent [train] leaves, however it ends: the agent of a run of
    [learn] calls on transitions of the moves made, with another [epsilon].
    The points are stored by the last statement only. *)
Lemma train_learns fuel st (o : outcome (ext num)) st' :
  train fuel st = (o, st') →
  ∃ evs ts ag1, trace st' = trace st ++ evs ∧
    learn_all (self st) ts = Ret ag1 ∧ self st' = set_epsilon ag1 (epsilon (self st')) ∧
    Forall (from_move evs (directions (self st))) ts ∧
    (failed o → Forall (λ ev, is_store ev = false) evs ∧ same_files st st').
Proof.
  unfold train. intros Hrun.
  apply bind_inv in Hrun as [(ag & st0 & [= <- <-] & Hrun) | [_ [(e & [=] & _) | [[=] _]]]].
  apply bind_inv in Hrun as [(best & st1 & Hloop & Hrun) | [Hfailed Hfail]].
  2:{ destruct Hfail as [(e & Hloop & _) | [Hloop _]];
        apply train_loop_learns in Hloop
          as (evs & ts & ag1 & Htr & Hevs & Hall & Hself & Hts & Hf);
        exists evs, ts, ag1; (split; [done|]); (split; [done|]); (split; [done|]);
        (split; [done|]); intros _; by split. }
  apply train_loop_learns in Hloop
    as (evs & ts & ag1 & Htr & Hevs & Hall & Hself & Hts & Hf).
  apply bind_inv in Hrun as [([] & st2 & [= <-] & [= <- <-]) | [_ [(e & [=] & _) | [[=] _]]]].
  exists (evs ++ [EvStore (world_id (self st)) best]), ts, ag1. simpl.
  split; [by rewrite Htr, <- app_assoc|]. split; [done|]. split; [done|]. split; [|done].
  eapply Forall_impl; [exact Hts|]. intros t. apply from_move_app_r.
Qed.

End LearnsTrain.

Section TrainMore.
Context {num W G : Type} `{!PyNum num, !WorldInterface num W, !RandomSource num G}.
Implicit Types (st : state num W G) (ag : agent num).

Lemma learn_all_settings ts ag ag' :
  learn_all ag ts = Ret ag' → same_settings ag ag'.
Proof.
  revert ag. induction ts as [|t ts IH]; intros ag; simpl.
  - intros [= <-]. by destruct ag.
  - destruct (learn_one ag t) as [ag1| |] eqn:Ht; simpl; [|done..].
    intros Hts%IH. unfold learn_one in Ht. apply learn_inv in Ht as [v ->].
    unfold same_settings in *. by rewrite Hts.
Qed.

(** The pairs of the table after a run of [learn] calls: those it had, and
    the pairs of the transitions, whose state keys were hashable. *)
Lemma learn_all_dom ts ag ag' k :
  learn_all ag ts = Ret ag' → k ∈ dom (Qtable ag') →
  k ∈ dom (Qtable ag) ∨ ∃ t, t ∈ ts ∧ k = pair_of t ∧ hashable (t_state t) = true.
Proof.
  revert ag. induction ts as [|t ts IH]; intros ag; simpl.
  - intros [= <-]. by left.
  - destruct (learn_one ag t) as [ag1| |] eqn:Ht; simpl; [|done..].
    intros Hts Hk. destruct (IH _ Hts Hk) as [Hin | (t' & Hin & -> & Hh)].
    + unfold learn_one in Ht.
      assert (Hh : hashable (t_state t) = true).
      { unfold learn, dict_get in Ht. simpl in Ht. unfold t_state.
        by destruct (hashable t.1.1.1.1). }
      apply learn_inv in Ht as [v ->]. simpl in Hin.
      apply elem_of_dom in Hin. destruct (decide (k = pair_of t)) as [->|Hne].
      * right. exists t. split; [by left | done].
      * left. apply elem_of_dom. unfold pair_of in Hne.
        by rewrite lookup_insert_ne in Hin.
    + right. exists t'. split; [by right | done].
Qed.

(** X11. The points are stored only by a run of [train] that returns: when
    [train] raises, or a loop does not end, the points file is as it was
    and no call of [store_points] was made, however many episodes had been
    completed before. *)
Theorem train_stores_only_on_return fuel st (o : outcome (ext num)) st' :
  train fuel st = (o, st') → failed o →
  data_file st' = data_file st ∧
  ∃ evs, trace st' = trace st ++ evs ∧ ∀ world points, EvStore world points ∉ evs.
Proof.
  intros Hrun Hfailed.
  destruct (train_learns _ _ _ _ Hrun) as (evs & ts & ag1 & Htr & _ & _ & _ & Hf).
  destruct (Hf Hfailed) as [Hevs [_ Hdata]]. split; [done|].
  exists evs. split; [done|]. intros world points Hin.
  rewrite Forall_forall in Hevs. by specialize (Hevs _ Hin).
Qed.

(** X12. However [train] ends, it has changed nothing of the agent but the
    table and [epsilon]: the world, the directions, the learning rate, the
    discount, the number of episodes, the floor and the decay factor are
    those it started with. *)
Theorem train_keeps_settings fuel st (o : outcome (ext num)) st' :
  train fuel st = (o, st') →
  world_id (self st') = world_id (self st) ∧
  directions (self st') = directions (self st) ∧
  alpha (self st') = alpha (self st) ∧
  gamma (self st') = gamma (self st) ∧
  episodes (self st') = episodes (self st) ∧
  min_epsilon (self st') = min_epsilon (self st) ∧
  decay_rate (self st') = decay_rate (self st).
Proof.
  intros Hrun.
  destruct (train_learns _ _ _ _ Hrun) as (evs & ts & ag1 & _ & Hall & Hself & _).
  apply learn_all_settings in Hall. unfold same_settings in Hall.
  by rewrite Hself, Hall.
Qed.

(** X13. However [train] ends, a pair that is in the table and was not
    there before has a state key of the shape [train] builds, a pair whose
    second item is a tuple, which is hashable; and its action is one of N, S,
    W, E or one of the agent's directions. *)
Theorem train_table_keys fuel st (o : outcome (ext num)) st' k :
  train fuel st = (o, st') →
  k ∈ dom (Qtable (self st')) →
  k ∈ dom (Qtable (self st)) ∨
  (observed_key k.1 = true ∧ hashable k.1 = true
   ∧ k.2 ∈ ["N"; "S"; "W"; "E"] ++ directions (self st)).
Proof.
  intros Hrun Hk.
  destruct (train_learns _ _ _ _ Hrun) as (evs & ts & ag1 & _ & Hall & Hself & Hts & _).
  rewrite Hself in Hk. simpl in Hk.
  destruct (learn_all_dom _ _ _ _ Hall Hk) as [Hin | (t & Hin & -> & Hh)]; [by left|].
  right. rewrite Forall_forall in Hts.
  destruct (Hts _ Hin) as (Hs & _ & Ha & _). done.
Qed.

End TrainMore.

Lemma train_stores_only_on_return_witness :
  let st := start agent0 {| sc_location := stub_result; sc_moves := [stub_result] |}
              [0%nat] in
  (train 5 st).1 = Raise HTTPError ∧
  data_file (train 5 st).2 = ∅ ∧
  ∃ evs, trace (train 5 st).2 = evs ∧ ∀ world points, EvStore world points ∉ evs.
Proof.
  pose (st := start agent0 {| sc_location := stub_result; sc_moves := [stub_result] |}
                [0%nat]).
  assert (Hrun : train 5 st = (Raise HTTPError, (train 5 st).2)) by (by vm_compute).
  destruct (train_stores_only_on_return 5 st _ _ Hrun I) as [Hdata (evs & Htr & Hevs)].
  split; [by vm_compute|]. split; [exact Hdata|]. exists evs. split; [exact Htr | exact Hevs].
Defined.

Lemma train_keeps_settings_witness :
  let st' := (train 1 (start agent0 Stub [0%nat])).2 in
  world_id (self st') = "w" ∧ directions (self st') = ["N"; "S"; "W"; "E"] ∧
  alpha (self st') = (1 # 2)%Q ∧ gamma (self st') = (9 # 10)%Q ∧
  episodes (self st') = 3 ∧ min_epsilon (self st') = (1 # 100)%Q ∧
  decay_rate (self st') = (1 # 2)%Q.
Proof.
  apply (train_keeps_settings 1 (start agent0 Stub [0%nat])
           (train 1 (start agent0 Stub [0%nat])).1).
  by destruct (train 1 (start agent0 Stub [0%nat])).
Defined.

Lemma train_table_keys_witness :
  let st' := (train 1 (start agent0 Stub [0%nat])).2 in
  (corner, "S") ∈ dom (Qtable (self st')) ∧
  observed_key corner = true ∧ hashable corner = true
  ∧ "S" ∈ ["N"; "S"; "W"; "E"] ++ directions agent0.
Proof.
  assert (Hk : (corner, "S")
               ∈ dom (Qtable (self (train 1 (start agent0 Stub [0%nat])).2))).
  { apply elem_of_dom. vm_compute. eauto. }
  split; [exact Hk|].
  destruct (train_table_keys 1 (start agent0 Stub [0%nat])
              (train 1 (start agent0 Stub [0%nat])).1
              (train 1 (start agent0 Stub [0%nat])).2 (corner, "S")) as [Hin|H].
  - by destruct (train 1 (start agent0 Stub [0%nat])).
  - exact Hk.
  - apply elem_of_dom in Hin. simpl in Hin. rewrite lookup_empty in Hin.
    by destruct Hin.
  - exact H.
Defined.

(** ** The update over the rationals: bounds *)

From Stdlib Require Import Lqa.

Lemma convex_step (a o t : Q) :
  (0 <= a)%Q → (a <= 1)%Q →
  ((o <= t)%Q → (o <= o + a * (t - o))%Q ∧ (o + a * (t - o) <= t)%Q) ∧
  ((t <= o)%Q → (t <= o + a * (t - o))%Q ∧ (o + a * (t - o) <= o)%Q).
Proof.
  intros Ha0 Ha1. split; intros Hot; split; nra.
Qed.

Lemma entry_within (B : Q) (ag : agent Q) k :
  (0 <= B)%Q → table_within B (Qtable ag) → (- B <= entry ag k)%Q ∧ (entry ag k <= B)%Q.
Proof.
  intros HB Htbl. unfold entry. destruct (Qtable ag !! k) as [v|] eqn:Hk; simpl.
  - by apply (Htbl k).
  - simpl. split; lra.
Qed.

(** The value [learn] writes, in terms of the target. *)
Lemma learn_new_value (ag : agent Q) state_key action reward next_key done ag' :
  learn ag state_key action reward next_key done = Ret ag' →
  ∃ target,
    Qtable ag' = <[(state_key, action) :=
                    (entry ag (state_key, action)
                     + alpha ag * (target - entry ag (state_key, action)))%Q]>
                   (Qtable ag) ∧
    (done = true → target = reward) ∧
    (done = false →
     ∃ m, py_max ((λ d, entry ag (next_key, d)) <$> directions ag) = Ret m
          ∧ target = (reward + gamma ag * m)%Q).
Proof.
  intros Hl.
  assert (Hk : hashable state_key = true).
  { unfold learn, dict_get in Hl. simpl in Hl. by destruct (hashable state_key). }
  destruct done.
  - rewrite (learn_done _ _ _ _ _ Hk) in Hl. injection Hl as <-.
    exists reward. by repeat split.
  - assert (Hn : hashable next_key = true).
    { destruct (hashable next_key) eqn:Hn; [done|].
      unfold learn, dict_get in Hl. simpl in Hl. rewrite Hk in Hl. simpl in Hl.
      unfold q_values, dict_get in Hl.
      destruct (directions ag) as [|d0 dirs]; [done|]. simpl in Hl.
      by rewrite Hn in Hl. }
    destruct (py_max ((λ d, entry ag (next_key, d)) <$> directions ag))
      as [m| |] eqn:Hm.
    + rewrite (learn_not_done _ _ _ _ _ m Hk Hn Hm) in Hl. injection Hl as <-.
      exists (reward + gamma ag * m)%Q. split; [done|]. split; [done | eauto].
    + unfold learn in Hl. rewrite (q_values_hashable _ _ _ Hn) in Hl.
      unfold dict_get in Hl. simpl in Hl. rewrite Hk in Hl. simpl in Hl.
      by rewrite Hm in Hl.
    + unfold learn in Hl. rewrite (q_values_hashable _ _ _ Hn) in Hl.
      unfold dict_get in Hl. simpl in Hl. rewrite Hk in Hl. simpl in Hl.
      by rewrite Hm in Hl.
Qed.

(** X9. With a learning rate in [0,1] the value [learn] writes lies between
    the old value and the target, the reward of a terminal transition or the
    reward plus the discounted best next entry: the update never overshoots
    the target and never moves away from it. *)
Theorem learn_between (ag : agent Q) state_key action reward next_key done ag' :
  (0 <= alpha ag)%Q → (alpha ag <= 1)%Q →
  learn ag state_key action reward next_key done = Ret ag' →
  ∃ target new,
    Qtable ag' !! (state_key, action) = Some new ∧
    (done = true → target = reward) ∧
    (done = false →
     ∃ m, py_max ((λ d, entry ag (next_key, d)) <$> directions ag) = Ret m
          ∧ target = (reward + gamma ag * m)%Q) ∧
    ((entry ag (state_key, action) <= target)%Q →
     (entry ag (state_key, action) <= new)%Q ∧ (new <= target)%Q) ∧
    ((target <= entry ag (state_key, action))%Q →
     (target <= new)%Q ∧ (new <= entry ag (state_key, action))%Q).
Proof.
  intros Ha0 Ha1 Hl.
  destruct (learn_new_value _ _ _ _ _ _ _ Hl) as (target & Htbl & Hdone & Hnot).
  exists target. eexists. rewrite Htbl.
  split; [apply lookup_insert_eq|]. split; [done|]. split; [done|].
  apply (convex_step (alpha ag) (entry ag (state_key, action)) target Ha0 Ha1).
Qed.

Lemma learn_between_witness :
  ∃ target new,
    Qtable (set_Qtable agent0 {[ (corner, "N") := (0 + (1 # 2) * (1 - 0))%Q ]})
      !! (corner, "N") = Some new ∧
    target = 1%Q ∧ (0 <= new)%Q ∧ (new <= target)%Q.
Proof.
  destruct (learn_between agent0 corner "N" 1%Q corner true
              (set_Qtable agent0 {[ (corner, "N") := (0 + (1 # 2) * (1 - 0))%Q ]}))
    as (target & new & Hnew & Ht & _ & Hup & _); [done | done | reflexivity |].
  exists target, new. split; [exact Hnew|]. split; [by apply Ht|].
  apply Hup. rewrite (Ht eq_refl). done.
Defined.

(** A call of [learn] with a reward within [-R, R] keeps the table within
    [-B, B], when the learning rate is in [0,1], the discount and [B] are
    not negative and [R + gamma * B <= B]. *)
Lemma learn_within (R B : Q) (ag : agent Q) state_key action reward next_key done ag' :
  (0 <= alpha ag)%Q → (alpha ag <= 1)%Q → (0 <= gamma ag)%Q →
  (0 <= R)%Q → (0 <= B)%Q → (R + gamma ag * B <= B)%Q →
  (- R <= reward)%Q → (reward <= R)%Q →
  table_within B (Qtable ag) →
  learn ag state_key action reward next_key done = Ret ag' →
  table_within B (Qtable ag').
Proof.
  intros Ha0 Ha1 Hg HR HB0 HB Hr0 Hr1 Htbl Hl.
  destruct (learn_new_value _ _ _ _ _ _ _ Hl) as (target & Hnew & Hdone & Hnot).
  destruct (convex_step (alpha ag) (entry ag (state_key, action)) target Ha0 Ha1)
    as [Hup Hdown].
  destruct (entry_within B ag (state_key, action) HB0 Htbl) as [Ho0 Ho1].
  assert (Htarget : (- B <= target)%Q ∧ (target <= B)%Q).
  { destruct done.
    - rewrite (Hdone eq_refl). split; nra.
    - destruct (Hnot eq_refl) as (m & Hm & ->).
      assert (Hmb : (- B <= m)%Q ∧ (m <= B)%Q).
      { destruct (directions ag) as [|d0 dirs] eqn:Hd; [done|].
        destruct (py_max_spec ((λ d, entry ag (next_key, d)) <$> d0 :: dirs))
          as (m' & Hm' & Hin & _); [done|].
        rewrite Hm in Hm'. injection Hm' as <-.
        apply list_elem_of_fmap in Hin as (d & -> & _). by apply entry_within. }
      destruct Hmb. split; nra. }
  destruct Htarget as [Ht0 Ht1]. rewrite Hnew. intros k w Hk.
  destruct (decide (k = (state_key, action))) as [->|Hne].
  - rewrite lookup_insert_eq in Hk. injection Hk as <-.
    destruct (Qlt_le_dec target (entry ag (state_key, action))) as [Hlt|Hle].
    + destruct (Hdown (Qlt_le_weak _ _ Hlt)). split; lra.
    + destruct (Hup Hle). split; lra.
  - rewrite lookup_insert_ne in Hk; [|done]. by apply (Htbl k).
Qed.

Lemma learn_all_within (R B : Q) (ts : list (transition (num:=Q))) (ag ag' : agent Q) :
  (0 <= alpha ag)%Q → (alpha ag <= 1)%Q → (0 <= gamma ag)%Q →
  (0 <= R)%Q → (0 <= B)%Q → (R + gamma ag * B <= B)%Q →
  Forall (λ t, (- R <= t_reward t)%Q ∧ (t_reward t <= R)%Q) ts →
  table_within B (Qtable ag) →
  learn_all ag ts = Ret ag' → table_within B (Qtable ag').
Proof.
  intros Ha0 Ha1 Hg HR HB0 HB. revert ag Ha0 Ha1 Hg HB.
  induction ts as [|t ts IH]; intros ag Ha0 Ha1 Hg HB Hts Htbl; simpl.
  - by intros [= <-].
  - destruct (learn_one ag t) as [ag1| |] eqn:Ht; simpl; [|done..].
    apply Forall_cons in Hts as [[Hr0 Hr1] Hts]. unfold learn_one in Ht.
    assert (Htbl1 : table_within B (Qtable ag1)).
    { exact (learn_within R B ag _ _ _ _ _ ag1 Ha0 Ha1 Hg HR HB0 HB Hr0 Hr1 Htbl Ht). }
    apply learn_inv in Ht as [v ->]. by apply IH.
Qed.

(** X10. The values stay bounded.  With a learning rate in [0,1], a
    discount that is not negative and [R + gamma * B <= B] (for a discount
    below 1: [B] at least [R / (1 - gamma)]), a table within [-B, B] stays
    within [-B, B] through [train], however it ends, as long as every move
    made got a reward within [-R, R]. *)
Theorem train_values_bounded {W G : Type} `{!WorldInterface Q W, !RandomSource Q G}
    (R B : Q) (fuel : nat) (st st' : state Q W G) (o : outcome (ext Q)) :
  (0 <= alpha (self st))%Q → (alpha (self st) <= 1)%Q → (0 <= gamma (self st))%Q →
  (0 <= R)%Q → (0 <= B)%Q → (R + gamma (self st) * B <= B)%Q →
  table_within B (Qtable (self st)) →
  train fuel st = (o, st') →
  (∀ world move res, EvMove world move res ∈ trace st' →
     (- R <= reward_of res)%Q ∧ (reward_of res <= R)%Q) →
  table_within B (Qtable (self st')).
Proof.
  intros Ha0 Ha1 Hg HR HB0 HB Htbl Hrun Hrewards.
  destruct (train_learns _ _ _ _ Hrun) as (evs & ts & ag1 & Htr & Hall & Hself & Hts & _).
  rewrite Hself. simpl.
  apply (learn_all_within R B ts (self st) ag1); try done.
  eapply Forall_impl; [exact Hts|]. intros t (_ & _ & _ & world & res & Hin & -> & _).
  apply (Hrewards world (t_action t) res). rewrite Htr, elem_of_app. by right.
Qed.

Lemma train_values_bounded_witness :
  table_within 10 (Qtable (self (train 1 (start agent0 Stub [0%nat])).2)).
Proof.
  assert (Hrun : train 1 (start agent0 Stub [0%nat])
                 = ((train 1 (start agent0 Stub [0%nat])).1,
                    (train 1 (start agent0 Stub [0%nat])).2)).
  { by destruct (train 1 (start agent0 Stub [0%nat])). }
  refine (train_values_bounded 1 10 1 (start agent0 Stub [0%nat]) _ _
            _ _ _ _ _ _ _ Hrun _).
  - by vm_compute.
  - by vm_compute.
  - by vm_compute.
  - by vm_compute.
  - by vm_compute.
  - by vm_compute.
  - intros k v Hk. exfalso. simpl in Hk. by rewrite lookup_empty in Hk.
  - clear Hrun.
    assert (Htrace : trace (train 1 (start agent0 Stub [0%nat])).2
                     = concat (replicate 3 [EvEnter "w"; EvLocate stub_result;
                                            EvMove "w" "S" stub_result])
                       ++ [EvStore "w" (Fin 1%Q)]) by (vm_compute; reflexivity).
    rewrite Htrace. clear Htrace. intros world move res Hin.
    apply list_elem_of_In in Hin. simpl in Hin.
    repeat (destruct Hin as [Hin|Hin];
            [first [discriminate Hin
                   | injection Hin as _ _ <-; split; vm_compute; discriminate]|]).
    contradiction.
Defined.

(** ** The exploration rate: closed form *)

Lemma py_max2_Q_floor (m x : Q) : (x <= m)%Q → py_max2 m x = m.
Proof.
  intros Hx. unfold py_max2. simpl.
  apply Qle_bool_iff in Hx. by rewrite Hx.
Qed.

(** X15. With a floor that is not negative and a decay factor in [0,1] the
    rate at the start of episode [n] is the greater of the floor and the
    start rate times the factor [n] times over: from the first decay on it is
    one of the two and at least both.  Once at the floor it stays there. *)
Theorem epsilon_closed_form (ag : agent Q) :
  (0 <= min_epsilon ag)%Q → (0 <= decay_rate ag)%Q → (decay_rate ag <= 1)%Q →
  ∀ n,
    (decayed ag n <= epsilon_at ag n)%Q ∧
    ((epsilon_at ag n == decayed ag n)%Q ∨ epsilon_at ag n = min_epsilon ag) ∧
    (min_epsilon ag <= epsilon_at ag (S n))%Q ∧
    ((epsilon_at ag n <= min_epsilon ag)%Q → epsilon_at ag (S n) = min_epsilon ag).
Proof.
  intros Hmin Hd0 Hd1 n.
  assert (Hfloor : ∀ k, (epsilon_at ag k <= min_epsilon ag)%Q →
                        epsilon_at ag (S k) = min_epsilon ag).
  { intros k Hk. rewrite epsilon_at_S. apply py_max2_Q_floor. simpl. nra. }
  assert (Hform : (decayed ag n <= epsilon_at ag n)%Q ∧
            ((epsilon_at ag n == decayed ag n)%Q ∨ epsilon_at ag n = min_epsilon ag)).
  { induction n as [|n [IHle IHeq]].
    - unfold decayed, epsilon_at. simpl. split; [lra | by left].
    - rewrite epsilon_at_S.
      destruct (py_max2_Q (min_epsilon ag) (epsilon_at ag n * decay_rate ag)%py)
        as [[Hl Hr] Hcases].
      simpl in Hr, Hcases. unfold decayed in *. simpl. split; [nra|].
      destruct Hcases as [Hc | Hc]; [by right|].
      destruct IHeq as [Heq | Heq].
      + left. rewrite Hc. by rewrite Heq.
      + right. apply py_max2_Q_floor. simpl. rewrite Heq. nra. }
  destruct Hform as [Hle Heq]. split; [done|]. split; [done|]. split.
  - rewrite epsilon_at_S.
    by destruct (py_max2_Q (min_epsilon ag) (epsilon_at ag n * decay_rate ag)%py)
      as [[Hl _] _].
  - apply Hfloor.
Qed.

Lemma epsilon_closed_form_witness :
  (decayed agent0 7 <= epsilon_at agent0 7)%Q ∧
  ((epsilon_at agent0 7 == decayed agent0 7)%Q
   ∨ epsilon_at agent0 7 = min_epsilon agent0) ∧
  (min_epsilon agent0 <= epsilon_at agent0 8)%Q ∧
  epsilon_at agent0 8 = min_epsilon agent0.
Proof.
  destruct (epsilon_closed_form agent0) with (n := 7%nat) as (H1 & H2 & H3 & H4);
    [by vm_compute..|].
  split; [exact H1|]. split; [exact H2|]. split; [exact H3|].
  apply H4. by vm_compute.
Defined.

(** ** The status of the client *)

Section StatusClaims.
Context {Run Enter W : Type} `{!StatusInterface Run Enter W}.

(** X16. [get_all_status] asks for one run, then for the location, and
    enters the world exactly when the location reports the world "-1", the
    string: a missing world or the integer -1 does not count.  When it does
    not enter, the [enter] of the status is the current run of the location,
    and the server is left as the location request left it. *)
Theorem get_all_status_enters_iff (world_id : string) (w : W) runs_resp w1 loc w2 :
  sv_runs w 1 = (Ret runs_resp, w1) → sv_location w1 = (Ret loc, w2) →
  (lr_worldId loc = Some (PyStr "-1") →
   (get_all_status world_id w).2 = [CallRuns 1; CallLocation; CallEnter world_id]
   ∧ (get_all_status world_id w).1.2 = (sv_enter w2 world_id).2
   ∧ ∀ s, (get_all_status world_id w).1.1 = Ret s →
          ∃ ans, (sv_enter w2 world_id).1 = Ret ans ∧ enter s = inl ans
                 ∧ location s = loc) ∧
  (lr_worldId loc ≠ Some (PyStr "-1") →
   ∃ s, get_all_status world_id w = (Ret s, w2, [CallRuns 1; CallLocation])
        ∧ enter s = inr (lr_runId loc) ∧ location s = loc).
Proof.
  intros Hruns Hloc. unfold get_all_status. rewrite Hruns, Hloc. split.
  - intros Hw. rewrite decide_True by done.
    destruct (sv_enter w2 world_id) as [[ans|e|] w3]; simpl; (split; [done|]);
      (split; [done|]); intros s; try done.
    intros [= <-]. eauto.
  - intros Hw. rewrite decide_False by done. eauto.
Qed.

(** X17. The [last_run] of the status is the last record of the runs
    result when its code is "OK" and it has runs; it is [None] when the code
    is anything else or missing, or when there are no runs, whatever the
    server holds.  A failure of the runs request stops [get_all_status]
    before any other request is made. *)
Theorem get_all_status_last_run (world_id : string) (w : W) :
  (∀ s w' calls, get_all_status world_id w = (Ret s, w', calls) →
     ∃ runs_resp w1, sv_runs w 1 = (Ret runs_resp, w1) ∧
       (∀ r, last_run s = Some r ↔
             rr_code runs_resp = Some (PyStr "OK")
             ∧ ∃ runs, rr_runs runs_resp = Some (runs ++ [r]))) ∧
  (∀ e w1, sv_runs w 1 = (Raise e, w1) →
     get_all_status world_id w = (Raise e, w1, [CallRuns 1])).
Proof.
  split.
  - intros s w' calls. unfold get_all_status.
    destruct (sv_runs w 1) as [[runs_resp|e|] w1]; [|done..].
    intros Hs. exists runs_resp, w1. split; [done|].
    assert (Hlast : last_run s =
              if decide (rr_code runs_resp = Some (PyStr "OK"))
              then last (default [] (rr_runs runs_resp)) else None).
    { destruct (sv_location w1) as [[loc|e1|] w2]; [|done..].
      destruct (decide (lr_worldId loc = Some (PyStr "-1"))).
      - destruct (sv_enter w2 world_id) as [[ans|e2|] w3]; [|done..].
        by injection Hs as <- _ _.
      - by injection Hs as <- _ _. }
    intros r. rewrite Hlast. destruct (decide _) as [Hcode|Hcode].
    + rewrite last_Some. split.
      * intros [runs Hr]. split; [done|]. exists runs.
        destruct (rr_runs runs_resp) as [l|]; simpl in Hr; [by rewrite Hr|].
        by destruct runs.
      * intros [_ [runs Hr]]. exists runs. by rewrite Hr.
    + split; [done | by intros [? _]].
  - intros e w1 Hruns. unfold get_all_status. by rewrite Hruns.
Qed.

End StatusClaims.

Lemma get_all_status_enters_iff_witness :
  (get_all_status "3" (StatusStub (PyStr "-1"))).2
    = [CallRuns 1; CallLocation; CallEnter "3"]
  ∧ ∃ s, get_all_status "3" (StatusStub (PyInt (-1)))
         = (Ret s, StatusStub (PyInt (-1)), [CallRuns 1; CallLocation])
         ∧ enter s = inr (Some (PyStr "r7")).
Proof.
  split.
  - edestruct (get_all_status_enters_iff "3" (StatusStub (PyStr "-1"))) as [H _];
      [reflexivity | reflexivity |].
    apply H. reflexivity.
  - edestruct (get_all_status_enters_iff "3" (StatusStub (PyInt (-1)))) as [_ H];
      [reflexivity | reflexivity |].
    destruct H as (s & Hs & He & _); [discriminate|]. by exists s.
Defined.

Lemma get_all_status_last_run_witness :
  ∃ s, (get_all_status "3" (StatusStub (PyStr "5"))).1.1 = Ret s
       ∧ last_run s = Some "run2".
Proof.
  destruct (get_all_status_last_run "3" (StatusStub (PyStr "5"))) as [H _].
  edestruct H as (runs_resp & w1 & Hruns & Hlast); [reflexivity|].
  eexists. split; [reflexivity|]. apply Hlast.
  injection Hruns as <- _. split; [done|]. by exists ["run1"].
Defined.

(** ** Episodes and repeated visits *)

Section Episodes.
Context {num W G : Type} `{!PyNum num, !WorldInterface num W, !RandomSource num G}.
Implicit Types (st : state num W G) (ag : agent num).

Lemma train_loop_moves fuel n best st b st' :
  train_loop fuel n best st = (Ret b, st') →
  ∃ eps : list (result num * list (string * result num)),
    length eps = n ∧ Forall (λ ep, ep.2 ≠ []) eps ∧
    trace st' = trace st ++ concat (episode_events (world_id (self st)) <$> eps).
Proof.
  revert best st. induction n as [|n IH]; intros best st; cbn [train_loop].
  - intros [= <- <-]. exists []. simpl. by rewrite app_nil_r.
  - intros Hrun.
    apply bind_ret_inv in Hrun as (total & st1 & Hep & Hrun).
    apply bind_ret_inv in Hrun as (ag & st2 & [= <- <-] & Hrun).
    apply bind_ret_inv in Hrun as ([] & st2 & [= <-] & Hrun).
    apply run_episode_inv in Hep as (loc & moves & Hne & Htr1 & _ & Hset & _).
    apply IH in Hrun as (eps & Hlen & Hall & Htr). simpl in Htr.
    exists ((loc, moves) :: eps). split; [simpl; by rewrite Hlen|].
    split; [by constructor|].
    unfold same_settings in Hset. rewrite Hset in Htr.
    rewrite Htr, Htr1. simpl. by rewrite <- !app_assoc.
Qed.

(** X18. The loop of an episode runs its body before it tests for the end:
    every episode of a run of [train] that returns has an enter, a locate and
    at least one move, so the moves made are at least as many as the
    episodes, and the calls before the final store at least three times as
    many. *)
Theorem train_moves_every_episode fuel st b st' :
  train fuel st = (Ret b, st') →
  ∃ eps : list (result num * list (string * result num)),
    length eps = Z.to_nat (episodes (self st)) ∧
    Forall (λ ep, ep.2 ≠ []) eps ∧
    trace st' = trace st ++ concat (episode_events (world_id (self st)) <$> eps)
                  ++ [EvStore (world_id (self st)) b] ∧
    (Z.to_nat (episodes (self st)) ≤ length (concat eps.*2))%nat ∧
    (3 * Z.to_nat (episodes (self st)) + 1 ≤ length (trace st') - length (trace st))%nat.
Proof.
  unfold train. intros Hrun.
  apply bind_ret_inv in Hrun as (ag & st1 & [= <- <-] & Hrun).
  apply bind_ret_inv in Hrun as (best & st1 & Hloop & Hrun).
  apply bind_ret_inv in Hrun as ([] & st2 & [= <-] & [= <- <-]).
  apply train_loop_moves in Hloop as (eps & Hlen & Hall & Htr).
  exists eps. split; [done|]. split; [done|]. simpl.
  split; [by rewrite Htr, <- app_assoc|]. rewrite <- Hlen.
  assert (Hcount : (length eps ≤ length (concat eps.*2))%nat
                   ∧ (3 * length eps
                      ≤ length (concat (episode_events (world_id (self st)) <$> eps)))%nat).
  { clear Hlen Htr. induction Hall as [|[loc moves] eps Hne _ IH]; [simpl; lia|].
    destruct IH as [IH1 IH2]. rewrite !fmap_cons. cbn [concat].
    rewrite !length_app. unfold episode_events at 1. cbn [fst snd length].
    rewrite length_fmap. destruct moves as [|m moves]; [done|]. cbn [length]. lia. }
  destruct Hcount as [Hc1 Hc2]. split; [done|].
  rewrite Htr, !length_app. simpl. lia.
Qed.

End Episodes.

Lemma train_moves_every_episode_witness :
  ∃ eps : list (result Q * list (string * result Q)),
    length eps = 3%nat ∧ Forall (λ ep, ep.2 ≠ []) eps ∧
    (3 ≤ length (concat eps.*2))%nat.
Proof.
  assert (Hrun : train 1 (start agent0 Stub [0%nat])
                 = (Ret (Fin 1%Q), (train 1 (start agent0 Stub [0%nat])).2))
    by (by vm_compute).
  destruct (train_moves_every_episode _ _ _ _ Hrun) as (eps & Hlen & Hall & _ & Hm & _).
  exists eps. split; [exact Hlen|]. split; [exact Hall | exact Hm].
Defined.

Lemma Qpow_S (q : Q) n : Qpow q (S n) = (q * Qpow q n)%Q.
Proof. done. Qed.

(** X19. Repeated visits converge.  After [n] terminal transitions of the
    same pair with the same reward [r], the distance of the entry to [r] is
    the distance it started with times [(1 - alpha)] to the power [n]: with a
    learning rate in (0,1] the entry tends to the reward. *)
Theorem learn_repeated_terminal (ag : agent Q) state_key action (r : Q) next_key n :
  hashable state_key = true →
  ∃ ag', learn_all ag (replicate n (state_key, action, r, next_key, true)) = Ret ag' ∧
    (entry ag' (state_key, action) - r
     == Qpow (1 - alpha ag) n * (entry ag (state_key, action) - r))%Q.
Proof.
  intros Hk. revert ag. induction n as [|n IH]; intros ag.
  - exists ag. split; [done|]. unfold Qpow. simpl. ring.
  - set (ag1 := set_Qtable ag (<[(state_key, action) :=
                (entry ag (state_key, action)
                 + alpha ag * (r - entry ag (state_key, action)))%py]> (Qtable ag))).
    destruct (IH ag1) as (ag' & Hall & Heq).
    exists ag'. split.
    + cbn [replicate learn_all]. unfold learn_one. cbn [fst snd].
      rewrite (learn_done _ _ _ _ _ Hk). exact Hall.
    + assert (Hent : entry ag1 (state_key, action)
                     = (entry ag (state_key, action)
                        + alpha ag * (r - entry ag (state_key, action)))%Q).
      { unfold entry at 1, ag1. simpl. by rewrite lookup_insert_eq. }
      rewrite Heq, Hent, Qpow_S. change (alpha ag1) with (alpha ag). ring.
Qed.

Lemma learn_repeated_terminal_witness :
  ∃ ag', learn_all agent0 (replicate 3 (corner, "S", 1%Q, corner, true)) = Ret ag' ∧
    (entry ag' (corner, "S") - 1 == Qpow (1 - (1 # 2)) 3 * (0 - 1))%Q.
Proof.
  apply (learn_repeated_terminal agent0 corner "S" 1%Q corner 3). reflexivity.
Defined.
